(** * buddy_system.py: the binary buddy allocator, embedded and verified

    The allocator of [src/buddy_system.py] is translated function by
    function.  Python integers are [Z]; the per-level free sets are a
    [list (gset Z)], the allocated map a [gmap Z Z].  Level numbers are
    [nat]: the source only produces them through [max(0, ...)],
    [range(...)] and [int(math.log2(...)) + 1], so they are never negative.

    Arithmetic on floats ([size_mb / self.min_size], [math.log2],
    [math.ceil]) is read as exact real arithmetic: the embedding computes
    the mathematical value of [ceil(log2(p / q))] on integers.

    A call that raises a Python exception is a [Raise]; what the partly
    updated object looks like after the exception is not modelled.  The
    element [set.pop()] returns is left open: [allocate] takes the selection
    as a [SetPop], and the statements hold for every selection. *)

From stdpp Require Import base numbers option list sets fin_sets gmap sorting strings pretty.
From Stdlib Require Import ZArith Lia Ascii.
From Stdlib Require String.

Local Open Scope Z_scope.

(** ** The Python runtime used by the allocator *)

Module Py.

(** Exceptions the allocator code can raise. *)
Inductive exn : Type :=
  | ZeroDivisionError
  | ValueError
  | IndexError
  | KeyError.

Inductive result (A : Type) : Type :=
  | Ok (a : A)
  | Raise (e : exn).
Arguments Ok {A} a.
Arguments Raise {A} e.

(** Sequencing: an exception ends the computation.  With these instances
    [x ← m; k] is stdpp's monadic notation. *)
Global Instance result_ret : MRet result := λ A a, Ok a.
Global Instance result_bind : MBind result := λ A B k m,
  match m with
  | Ok a => k a
  | Raise e => Raise e
  end.

(** [a // b]: floor division, as [Z.div]. *)
Definition floordiv (a b : Z) : result Z :=
  if decide (b = 0) then Raise ZeroDivisionError else Ok (a / b).

(** [int(math.log2(q))] on an integer [q]. *)
Definition int_log2 (q : Z) : result Z :=
  if decide (q ≤ 0) then Raise ValueError else Ok (Z.log2 q).

(** [math.ceil(math.log2(p / q))], with [/] the true division. *)
Definition ceil_log2_div (p q : Z) : result Z :=
  if decide (q = 0) then Raise ZeroDivisionError
  else if decide (p = 0 ∨ Z.sgn p ≠ Z.sgn q) then Raise ValueError
  else
    let p := Z.abs p in
    let q := Z.abs q in
    if decide (p ≤ q) then Ok (- Z.log2 (q / p))
    else Ok (Z.log2_up ((p + q - 1) / q)).

(** [l[i]] for an index [i >= 0]. *)
Definition getitem {A} (l : list A) (i : nat) : result A :=
  match l !! i with
  | Some x => Ok x
  | None => Raise IndexError
  end.

(** [l[-1]]. *)
Definition getitem_last {A} (l : list A) : result A :=
  match l with
  | [] => Raise IndexError
  | _ => getitem l (length l - 1)%nat
  end.

(** [set.pop()] removes and returns an arbitrary element; which one is left
    to the interpreter.  A [SetPop] is one such selection. *)
Class SetPop : Type := {
  set_pop : gset Z → option Z;
  set_pop_elem X a : set_pop X = Some a → a ∈ X;
  set_pop_None X : set_pop X = None → X = ∅
}.

(** [sorted(...)] on integers and on [(int, int)] pairs. *)
Definition sorted (l : list Z) : list Z := merge_sort Z.le l.

Definition pair_le (x y : Z * Z) : Prop :=
  x.1 < y.1 ∨ (x.1 = y.1 ∧ x.2 ≤ y.2).

Global Instance pair_le_dec x y : Decision (pair_le x y).
Proof. unfold pair_le. apply _. Defined.

Definition sorted_items (l : list (Z * Z)) : list (Z * Z) := merge_sort pair_le l.

(** [f"{n:8d}"]: decimal, right-aligned in a field of width 8. *)
Fixpoint spaces (n : nat) : string :=
  match n with
  | O => EmptyString
  | S n' => String (ascii_of_nat 32) (spaces n')
  end.

Definition fmt_8d (n : Z) : string :=
  let d := pretty n in
  spaces (8 - String.length d) +:+ d.

(** [c * n] for a one-character string. *)
Fixpoint str_mul (c : ascii) (n : nat) : string :=
  match n with
  | O => EmptyString
  | S n' => String c (str_mul c n')
  end.

Definition newline : string := String (ascii_of_nat 10) EmptyString.

End Py.

Import Py.

(** The smallest-address-first selection, one concrete [SetPop]. *)
Definition pop_min (X : gset Z) : option Z := head (sorted (elements X)).

Definition smallest_first : SetPop.
Proof.
  refine (Build_SetPop pop_min _ _); unfold pop_min, sorted.
  - intros X a H. apply head_Some_elem_of in H.
    rewrite merge_sort_Permutation in H. by apply elem_of_elements in H.
  - intros X H. apply head_None in H.
    apply leibniz_equiv, elements_empty_iff, Permutation_nil_r.
    rewrite <- H. by rewrite merge_sort_Permutation.
Defined.

(** ** The allocator *)

Record BuddySystemAllocator : Type := mkAllocator {
  total_size : Z;
  min_size : Z;
  levels : nat;
  free_blocks : list (gset Z);
  allocated_blocks : gmap Z Z
}.

(** [self.min_size << lvl] *)
Definition block_size (min_size : Z) (lvl : nat) : Z := Z.shiftl min_size (Z.of_nat lvl).

Definition __init__ (total_memory_mb min_block_mb : Z) : result BuddySystemAllocator :=
  q ← floordiv total_memory_mb min_block_mb;
  lg ← int_log2 q;
  let levels := Z.to_nat (lg + 1) in
  let free_blocks := replicate levels (∅ : gset Z) in
  top ← getitem_last free_blocks;
  let free_blocks := <[ (length free_blocks - 1)%nat := top ∪ {[ 0 ]} ]> free_blocks in
  Ok (mkAllocator total_memory_mb min_block_mb levels free_blocks ∅).

(** The allocator with [n + 1] levels and the whole space free. *)
Definition fresh (total min : Z) (n : nat) : BuddySystemAllocator :=
  mkAllocator total min (S n) (replicate n ∅ ++ [ {[ 0 ]} ]) ∅.

Definition _get_level (self : BuddySystemAllocator) (size_mb : Z) : result nat :=
  let size_mb := if decide (size_mb < min_size self) then min_size self else size_mb in
  c ← ceil_log2_div size_mb (min_size self);
  Ok (Z.to_nat (Z.max 0 c)).

(** The [while lvl > level] loop of [allocate]: [lvl] decreases by one each
    round, so the loop is a structural recursion on [lvl]. *)
Fixpoint split_loop (min_size : Z) (level : nat) (addr : Z) (lvl : nat)
    (free_blocks : list (gset Z)) : result (list (gset Z)) :=
  match lvl with
  | O => Ok free_blocks
  | S lvl' =>
      if decide (level < lvl)%nat then
        let buddy_addr := addr + block_size min_size lvl' in
        X ← getitem free_blocks lvl';
        split_loop min_size level addr lvl' (<[ lvl' := X ∪ {[ buddy_addr ]} ]> free_blocks)
      else Ok free_blocks
  end.

Section allocate.
Context {pop : SetPop}.

(** The [for lvl in range(level, self.levels)] loop of [allocate], over the
    levels still to visit. *)
Fixpoint allocate_scan (self : BuddySystemAllocator) (level : nat) (lvls : list nat)
    : result (BuddySystemAllocator * option Z) :=
  match lvls with
  | [] => Ok (self, None)
  | lvl :: lvls' =>
      X ← getitem (free_blocks self) lvl;
      if decide (X ≠ ∅) then
        match set_pop X with
        | None => Raise KeyError
        | Some addr =>
            let fb := <[ lvl := X ∖ {[ addr ]} ]> (free_blocks self) in
            fb ← split_loop (min_size self) level addr lvl fb;
            Ok (mkAllocator (total_size self) (min_size self) (levels self) fb
                  (<[ addr := block_size (min_size self) level ]> (allocated_blocks self)),
                Some addr)
        end
      else allocate_scan self level lvls'
  end.

Definition allocate (self : BuddySystemAllocator) (size_mb : Z)
    : result (BuddySystemAllocator * option Z) :=
  level ← _get_level self size_mb;
  allocate_scan self level (seq level (levels self - level)).

End allocate.

(** The coalescing [while] loop of [deallocate].  Every round that does not
    leave the loop increases [current_level], so [levels - 1 - current_level]
    rounds are enough; [deallocate] passes that number as [fuel]. *)
Fixpoint coalesce (fuel : nat) (min_size : Z) (levels : nat) (free_blocks : list (gset Z))
    (current_addr : Z) (current_level : nat) : result (list (gset Z) * Z * nat) :=
  match fuel with
  | O => Ok (free_blocks, current_addr, current_level)
  | S fuel' =>
      if decide (current_level < levels - 1)%nat then
        let buddy_addr := Z.lxor current_addr (block_size min_size current_level) in
        X ← getitem free_blocks current_level;
        if decide (buddy_addr ∈ X) then
          coalesce fuel' min_size levels
            (<[ current_level := X ∖ {[ buddy_addr ]} ]> free_blocks)
            (Z.min current_addr buddy_addr) (S current_level)
        else Ok (free_blocks, current_addr, current_level)
      else Ok (free_blocks, current_addr, current_level)
  end.

Definition deallocate (self : BuddySystemAllocator) (addr : Z)
    : result (BuddySystemAllocator * bool) :=
  match allocated_blocks self !! addr with
  | None => Ok (self, false)
  | Some size =>
      let allocated := delete addr (allocated_blocks self) in
      level ← _get_level self size;
      '(fb, current_addr, current_level) ←
        coalesce (levels self - 1 - level) (min_size self) (levels self)
          (free_blocks self) addr level;
      X ← getitem fb current_level;
      Ok (mkAllocator (total_size self) (min_size self) (levels self)
            (<[ current_level := X ∪ {[ current_addr ]} ]> fb) allocated,
          true)
  end.

(** [memory_map]: the text of the map, built line by line as in the source.
    The model returns the allocator next to the text so that "the call leaves
    the allocator as it was" is a statement about the result. *)
Definition map_header (total_size : Z) : string :=
  "Buddy System Memory Map (" +:+ pretty total_size +:+ "MB total)" +:+ newline
  +:+ str_mul (ascii_of_nat 45) 60 +:+ newline.

Definition allocated_line (addr size : Z) : string :=
  "Allocated: " +:+ fmt_8d addr +:+ "-" +:+ fmt_8d (addr + size - 1)
  +:+ " (" +:+ pretty size +:+ "MB)" +:+ newline.

Definition free_line (addr size : Z) : string :=
  "Free:     " +:+ fmt_8d addr +:+ "-" +:+ fmt_8d (addr + size - 1)
  +:+ " (" +:+ pretty size +:+ "MB)" +:+ newline.

(** The [for lvl in range(self.levels)] loop of [memory_map]. *)
Fixpoint memory_map_free (self : BuddySystemAllocator) (lvls : list nat) (map_str : string)
    : result string :=
  match lvls with
  | [] => Ok map_str
  | lvl :: lvls' =>
      let size := block_size (min_size self) lvl in
      X ← getitem (free_blocks self) lvl;
      memory_map_free self lvls'
        (foldl (λ acc addr, acc +:+ free_line addr size) map_str (sorted (elements X)))
  end.

Definition memory_map (self : BuddySystemAllocator) : result (BuddySystemAllocator * string) :=
  let map_str := map_header (total_size self) in
  let map_str :=
    foldl (λ acc item, acc +:+ allocated_line item.1 item.2) map_str
      (sorted_items (map_to_list (allocated_blocks self))) in
  map_str ← memory_map_free self (seq 0 (levels self)) map_str;
  Ok (self, map_str).

(** The entries behind the lines of [memory_map], in the order the lines are
    written: one per allocated block, then one per free block. *)
Inductive block_state : Type := Allocated | Free.

Record map_entry : Type := mkEntry {
  entry_state : block_state;
  entry_addr : Z;
  entry_size : Z
}.

Definition entry_line (e : map_entry) : string :=
  match entry_state e with
  | Allocated => allocated_line (entry_addr e) (entry_size e)
  | Free => free_line (entry_addr e) (entry_size e)
  end.

Fixpoint free_entries (self : BuddySystemAllocator) (lvls : list nat) : result (list map_entry) :=
  match lvls with
  | [] => Ok []
  | lvl :: lvls' =>
      let size := block_size (min_size self) lvl in
      X ← getitem (free_blocks self) lvl;
      rest ← free_entries self lvls';
      Ok (((λ addr, mkEntry Free addr size) <$> sorted (elements X)) ++ rest)
  end.

Definition allocated_entries (self : BuddySystemAllocator) : list map_entry :=
  (λ item, mkEntry Allocated item.1 item.2) <$> sorted_items (map_to_list (allocated_blocks self)).

Definition memory_map_entries (self : BuddySystemAllocator) : result (list map_entry) :=
  free ← free_entries self (seq 0 (levels self));
  Ok (allocated_entries self ++ free).

(** ** Call sequences *)

(** One call of the public interface.  An [Allocate] carries the selection
    its [set.pop()] makes, so a sequence of calls ranges over every behaviour
    of the interpreter. *)
Inductive op : Type :=
  | Allocate (pop : SetPop) (size_mb : Z)
  | Deallocate (addr : Z).

Definition step (self : BuddySystemAllocator) (o : op) : result BuddySystemAllocator :=
  match o with
  | Allocate pop size_mb => r ← allocate (pop := pop) self size_mb; Ok r.1
  | Deallocate addr => r ← deallocate self addr; Ok r.1
  end.

Fixpoint run (self : BuddySystemAllocator) (ops : list op) : result BuddySystemAllocator :=
  match ops with
  | [] => Ok self
  | o :: ops' => s ← step self o; run s ops'
  end.

(** ** Sizes held by the allocator *)

(** Sum of the sizes of the blocks of one free set: every block of level
    [lvl] has size [min_size << lvl]. *)
Definition level_total (min_size : Z) (lvl : nat) (X : gset Z) : Z :=
  set_fold (λ _ acc, acc + block_size min_size lvl) 0 X.

Fixpoint free_total_from (min_size : Z) (lvl : nat) (free_blocks : list (gset Z)) : Z :=
  match free_blocks with
  | [] => 0
  | X :: rest => level_total min_size lvl X + free_total_from min_size (S lvl) rest
  end.

Definition free_total (self : BuddySystemAllocator) : Z :=
  free_total_from (min_size self) 0 (free_blocks self).

Definition allocated_sum (allocated : gmap Z Z) : Z :=
  map_fold (λ _ size acc, acc + size) 0 allocated.

Definition allocated_total (self : BuddySystemAllocator) : Z :=
  allocated_sum (allocated_blocks self).

(** ** The data-model invariants *)

(** A block the allocator knows about: a member of the free set of a level,
    or an entry of the allocated map. *)
Inductive block : Type :=
  | FreeBlock (lvl : nat) (addr : Z)
  | AllocatedBlock (addr size : Z).

Global Instance block_eq_dec : EqDecision block.
Proof. solve_decision. Defined.

Definition block_addr (b : block) : Z :=
  match b with
  | FreeBlock _ addr => addr
  | AllocatedBlock addr _ => addr
  end.

Definition block_len (min_size : Z) (b : block) : Z :=
  match b with
  | FreeBlock lvl _ => block_size min_size lvl
  | AllocatedBlock _ size => size
  end.

Definition block_in (free_blocks : list (gset Z)) (allocated : gmap Z Z) (b : block) : Prop :=
  match b with
  | FreeBlock lvl addr => ∃ X, free_blocks !! lvl = Some X ∧ addr ∈ X
  | AllocatedBlock addr size => allocated !! addr = Some size
  end.

(** Address [p] lies in the region [addr, addr + size) of block [b]. *)
Definition covers (min_size : Z) (b : block) (p : Z) : Prop :=
  block_addr b ≤ p < block_addr b + block_len min_size b.

(** A free block sits on an existing level; an allocated size is the size
    of an existing level. *)
Definition block_sized (min_size : Z) (levels : nat) (b : block) : Prop :=
  match b with
  | FreeBlock lvl _ => (lvl < levels)%nat
  | AllocatedBlock _ size => ∃ k, (k < levels)%nat ∧ size = block_size min_size k
  end.

Section geometry.
Context (min_size total_size : Z) (levels : nat) (B : block → Prop).

Definition sized : Prop :=
  ∀ b, B b → block_sized min_size levels b.

Definition aligned : Prop :=
  ∀ b, B b → (block_len min_size b | block_addr b).

Definition inside : Prop :=
  ∀ b, B b → 0 ≤ block_addr b ∧ block_addr b + block_len min_size b ≤ total_size.

Definition no_overlap : Prop :=
  ∀ b1 b2 p, B b1 → B b2 → covers min_size b1 p → covers min_size b2 p → b1 = b2.

Definition no_gap : Prop :=
  ∀ p, 0 ≤ p < total_size → ∃ b, B b ∧ covers min_size b p.

Record geometry : Prop := mkGeometry {
  geo_sized : sized;
  geo_aligned : aligned;
  geo_inside : inside;
  geo_no_overlap : no_overlap;
  geo_no_gap : no_gap
}.

End geometry.

(** The invariant of the bookkeeping, for fixed [min_size], [total_size] and
    [levels]. *)
Definition inv (min_size total_size : Z) (levels : nat)
    (free_blocks : list (gset Z)) (allocated : gmap Z Z) : Prop :=
  length free_blocks = levels
  ∧ geometry min_size total_size levels (block_in free_blocks allocated)
  ∧ free_total_from min_size 0 free_blocks + allocated_sum allocated = total_size.

Record Inv (self : BuddySystemAllocator) : Prop := mkInv {
  inv_min_size : 0 < min_size self;
  inv_levels : (0 < levels self)%nat;
  inv_total_size : total_size self = block_size (min_size self) (levels self - 1);
  inv_state : inv (min_size self) (total_size self) (levels self)
                (free_blocks self) (allocated_blocks self)
}.

(** The blocks of an allocator, and the properties the claims name. *)
Definition has_block (self : BuddySystemAllocator) (b : block) : Prop :=
  block_in (free_blocks self) (allocated_blocks self) b.



(** No two free blocks of a level are the two halves of one block of the
    next level. *)
Definition no_free_buddies (self : BuddySystemAllocator) : Prop :=
  ∀ lvl X addr,
    (lvl < levels self - 1)%nat →
    free_blocks self !! lvl = Some X →
    addr ∈ X → addr + block_size (min_size self) lvl ∈ X →
    ¬ (2 * block_size (min_size self) lvl | addr).

(** What the operations need to run without a Python error. *)
Definition well_formed (self : BuddySystemAllocator) : Prop :=
  0 < min_size self ∧ length (free_blocks self) = levels self.

(** ** The coalescing loop, as the specification words it

    Starting from [current_addr] and [current_level]: while
    [current_level < L - 1] and the buddy [current_addr XOR (S << current_level)]
    is in the free set of [current_level], remove the buddy, continue from
    the lower of the two addresses one level up; otherwise stop. *)
Inductive coalesce_spec (min_size : Z) (L : nat) :
    list (gset Z) → Z → nat → list (gset Z) → Z → nat → Prop :=
  | coalesce_top fb addr lvl :
      ¬ (lvl < L - 1)%nat →
      coalesce_spec min_size L fb addr lvl fb addr lvl
  | coalesce_buddy_not_free fb addr lvl X :
      (lvl < L - 1)%nat →
      fb !! lvl = Some X →
      Z.lxor addr (Z.shiftl min_size (Z.of_nat lvl)) ∉ X →
      coalesce_spec min_size L fb addr lvl fb addr lvl
  | coalesce_merge fb addr lvl X fb' addr' lvl' :
      (lvl < L - 1)%nat →
      fb !! lvl = Some X →
      Z.lxor addr (Z.shiftl min_size (Z.of_nat lvl)) ∈ X →
      coalesce_spec min_size L
        (<[ lvl := X ∖ {[ Z.lxor addr (Z.shiftl min_size (Z.of_nat lvl)) ]} ]> fb)
        (Z.min addr (Z.lxor addr (Z.shiftl min_size (Z.of_nat lvl)))) (S lvl)
        fb' addr' lvl' →
      coalesce_spec min_size L fb addr lvl fb' addr' lvl'.

(** The entries of one level in [memory_map]. *)
Definition level_entries (min_size : Z) (lvl : nat) (X : gset Z) : list map_entry :=
  (λ addr, mkEntry Free addr (block_size min_size lvl)) <$> sorted (elements X).

(** Address [p] lies in the range an entry prints. *)
Definition entry_covers (e : map_entry) (p : Z) : Prop :=
  entry_addr e ≤ p < entry_addr e + entry_size e.

(** The text [memory_map] builds: the lines of the entries appended to the
    header, in order. *)
Definition map_text (header : string) (es : list map_entry) : string :=
  foldl (λ text e, text +:+ entry_line e) header es.

(** The entry [memory_map] writes for a block. *)
Definition entry_of_block (min_size : Z) (b : block) : map_entry :=
  match b with
  | FreeBlock lvl addr => mkEntry Free addr (block_size min_size lvl)
  | AllocatedBlock addr size => mkEntry Allocated addr size
  end.

(** Entries in strictly ascending address order. *)
Definition ascending (es : list map_entry) : Prop :=
  StronglySorted (λ e1 e2, entry_addr e1 < entry_addr e2) es.

(** * Proofs *)

(** ** Arithmetic of block sizes *)

Section block_size.

Lemma block_size_spec m l : block_size m l = m * 2 ^ Z.of_nat l.
Proof. unfold block_size. apply Z.shiftl_mul_pow2. lia. Qed.

Lemma block_size_0 m : block_size m 0 = m.
Proof. rewrite block_size_spec. simpl. lia. Qed.

Lemma block_size_S m l : block_size m (S l) = 2 * block_size m l.
Proof.
  rewrite !block_size_spec, Nat2Z.inj_succ, Z.pow_succ_r by lia. lia.
Qed.

Lemma block_size_pos m l : 0 < m → 0 < block_size m l.
Proof.
  intros Hm. rewrite block_size_spec.
  apply Z.mul_pos_pos; [done|]. apply Z.pow_pos_nonneg; lia.
Qed.

Lemma block_size_le m k l : 0 < m → (k ≤ l)%nat → block_size m k ≤ block_size m l.
Proof.
  intros Hm Hkl. rewrite !block_size_spec.
  apply Z.mul_le_mono_nonneg_l; [lia|].
  apply Z.pow_le_mono_r; lia.
Qed.

Lemma block_size_lt m k l : 0 < m → (k < l)%nat → block_size m k < block_size m l.
Proof.
  intros Hm Hkl. rewrite !block_size_spec.
  apply Z.mul_lt_mono_pos_l; [lia|].
  apply Z.pow_lt_mono_r; lia.
Qed.

Lemma block_size_inj m k l : 0 < m → block_size m k = block_size m l → k = l.
Proof.
  intros Hm Heq.
  destruct (Nat.lt_trichotomy k l) as [Hlt|[->|Hlt]]; [|done|];
    apply (block_size_lt m) in Hlt; lia.
Qed.

Lemma block_size_divide m k l : (k ≤ l)%nat → (block_size m k | block_size m l).
Proof.
  intros Hkl. rewrite !block_size_spec.
  exists (2 ^ Z.of_nat (l - k)).
  replace (Z.of_nat l) with (Z.of_nat (l - k) + Z.of_nat k) by lia.
  rewrite Z.pow_add_r by lia. lia.
Qed.

End block_size.

(** ** Bit arithmetic of the buddy address *)

Section buddy_bits.

Lemma land_le_r a d : 0 ≤ d → Z.land a d ≤ d.
Proof.
  intros Hd.
  assert (H0 : Z.land (Z.ldiff d a) (Z.land a d) = 0).
  { rewrite Z.land_assoc, Z.land_ldiff. apply Z.land_0_l. }
  apply Z.add_nocarry_lor in H0.
  rewrite (Z.land_comm a d), Z.lor_ldiff_and in H0.
  assert (0 ≤ Z.ldiff d a) by (apply Z.ldiff_nonneg; lia).
  rewrite (Z.land_comm a d). lia.
Qed.

Lemma lxor_1_even m : Z.even m = true → Z.lxor m 1 = m + 1.
Proof.
  intros He. symmetry. apply Z.add_nocarry_lxor.
  apply Z.bits_inj'. intros n Hn. rewrite Z.land_spec, Z.bits_0.
  destruct (decide (n = 0)) as [->|].
  - rewrite Z.bit0_odd, <- Z.negb_even, He. done.
  - rewrite (Z.bits_above_log2 1 n) by (simpl; lia). apply andb_false_r.
Qed.

Lemma lxor_1_odd m : Z.odd m = true → Z.lxor m 1 = m - 1.
Proof.
  intros Ho.
  assert (Z.even (m - 1) = true) as He.
  { replace (m - 1) with (m + 2 * (-1) + 1) by lia.
    rewrite Z.even_add, Z.even_add_mul_2, <- Z.negb_odd, Ho. done. }
  apply lxor_1_even in He.
  replace (m - 1 + 1) with m in He by lia.
  rewrite <- He at 1. by rewrite Z.lxor_assoc, Z.lxor_nilpotent, Z.lxor_0_r.
Qed.

(** On a multiple [d * m] of the unit [d], the bits shared with [d] are
    never those the parity of [m] would need for a wrong merge: the lowest
    set bit of [d] is set in [d * m] exactly when [m] is odd. *)
Lemma land_multiple d m :
  0 < d → 0 ≤ m → Z.land (d * m) d ≠ (if Z.even m then d else 0).
Proof.
  intros Hd. destruct d as [|p|p]; try lia. clear Hd.
  induction p as [p IH|p IH|]; intros Hm.
  - intros Heq. apply (f_equal Z.odd) in Heq.
    rewrite <- Z.bit0_odd, Z.land_spec, !Z.bit0_odd, Z.odd_mul in Heq.
    change (Z.odd (Z.pos p~1)) with true in Heq.
    rewrite <- Z.negb_even in Heq.
    destruct (Z.even m); simpl in Heq; discriminate.
  - specialize (IH Hm). intros Heq. apply IH.
    change (Z.pos p~0) with (2 * Z.pos p) in Heq.
    replace (2 * Z.pos p * m) with (2 * (Z.pos p * m)) in Heq by lia.
    rewrite <- !(Z.mul_comm _ 2) in Heq.
    change 2 with (2 ^ 1) in Heq.
    rewrite <- !Z.shiftl_mul_pow2, <- Z.shiftl_land in Heq by lia.
    rewrite Z.shiftl_mul_pow2 in Heq by lia.
    destruct (Z.even m); rewrite ?Z.shiftl_mul_pow2 in Heq by lia; lia.
  - intros Heq. rewrite Z.mul_1_l in Heq.
    apply (f_equal Z.odd) in Heq.
    rewrite <- Z.bit0_odd, Z.land_spec, !Z.bit0_odd in Heq.
    rewrite <- Z.negb_even in Heq.
    destruct (Z.even m); simpl in Heq; discriminate.
Qed.

(** For a unit [d] that need not be a power of two: XOR with [d] sends a
    multiple [d * m] either to the sibling [d * (m xor 1)] or to no multiple
    of [d] at all. *)
Lemma xor_buddy d m :
  0 < d → 0 ≤ m → (d | Z.lxor (d * m) d) → Z.lxor (d * m) d = d * Z.lxor m 1.
Proof.
  intros Hd Hm [q Hq].
  pose proof (Z.add_lxor_2land (d * m) d) as Hadd.
  pose proof (land_le_r (d * m) d ltac:(lia)) as Hle.
  assert (0 ≤ Z.land (d * m) d) as Hge by (apply Z.land_nonneg; lia).
  pose proof (land_multiple d m Hd Hm) as Hne.
  assert (2 * Z.land (d * m) d = d * (m + 1 - q)) as Hk by lia.
  assert (m + 1 - q = 0 ∨ m + 1 - q = 1 ∨ m + 1 - q = 2) as Hcase by nia.
  destruct Hcase as [H0|[H1|H2]].
  - rewrite H0 in Hk. destruct (Z.even m) eqn:He; [|lia].
    rewrite lxor_1_even by done. lia.
  - assert (Z.lxor (d * m) d = d * m) as Hfix by lia.
    apply (f_equal (Z.lxor (d * m))) in Hfix.
    rewrite <- Z.lxor_assoc, Z.lxor_nilpotent, Z.lxor_0_l in Hfix. lia.
  - rewrite H2 in Hk. destruct (Z.even m) eqn:He; [lia|].
    rewrite lxor_1_odd by (by rewrite <- Z.negb_even, He). lia.
Qed.

(** The same in the form the coalescing loop uses: when the XOR of an
    aligned address [c] with the block size [d] is itself aligned, it is the
    other half of the block of size [2 * d] around [c]. *)
Lemma xor_buddy_aligned c d :
  0 < d → 0 ≤ c → (d | c) → (d | Z.lxor c d) →
  (Z.lxor c d = c + d ∧ (2 * d | c)) ∨ (Z.lxor c d = c - d ∧ (2 * d | c - d)).
Proof.
  intros Hd Hc [m Hm] Hx. subst c. rewrite (Z.mul_comm m d) in *.
  assert (0 ≤ m) as Hm0 by nia.
  rewrite (xor_buddy d m Hd Hm0 Hx).
  destruct (Z.even m) eqn:He.
  - left. rewrite lxor_1_even by done. split; [lia|].
    apply Z.even_spec in He as [h ->]. exists h. lia.
  - right. assert (Z.odd m = true) as Ho by (by rewrite <- Z.negb_even, He).
    rewrite lxor_1_odd by done. split; [lia|].
    apply Z.odd_spec in Ho as [h ->]. exists h. lia.
Qed.

End buddy_bits.

(** ** Level selection *)

Section get_level.

Lemma ceil_div_le x m n : 0 < m → ((x + m - 1) / m ≤ n ↔ x ≤ m * n).
Proof.
  intros Hm. split; intros H.
  - pose proof (Z.mod_pos_bound (x + m - 1) m Hm).
    pose proof (Z.div_mod (x + m - 1) m ltac:(lia)).
    assert (m * ((x + m - 1) / m) ≤ m * n) by (apply Z.mul_le_mono_nonneg_l; lia).
    lia.
  - apply Z.lt_succ_r, Z.div_lt_upper_bound; [done|]. lia.
Qed.

(** With a positive minimum size, [_get_level] returns the least level
    whose block size reaches the request once the request is raised to the
    minimum size. *)
Lemma get_level_spec self size_mb :
  0 < min_size self →
  ∃ k, _get_level self size_mb = Ok k
    ∧ Z.max size_mb (min_size self) ≤ block_size (min_size self) k
    ∧ ∀ j, Z.max size_mb (min_size self) ≤ block_size (min_size self) j → (k ≤ j)%nat.
Proof.
  intros Hm. unfold _get_level.
  set (x := if decide (size_mb < min_size self) then min_size self else size_mb).
  assert (x = Z.max size_mb (min_size self)) as Hx by (unfold x; case_decide; lia).
  assert (min_size self ≤ x) as Hle by lia.
  rewrite <- Hx. clearbody x. clear Hx.
  set (m := min_size self) in *. clearbody m.
  assert (1 ≤ (x + m - 1) / m) as Hc by (apply Z.div_le_lower_bound; lia).
  pose proof (Z.log2_up_nonneg ((x + m - 1) / m)) as Hl0.
  assert (∀ j, x ≤ block_size m j ↔ Z.log2_up ((x + m - 1) / m) ≤ Z.of_nat j) as Hlvl.
  { intros j. rewrite block_size_spec, <- ceil_div_le by done.
    apply Z.log2_up_le_pow2. lia. }
  unfold ceil_log2_div.
  rewrite decide_False by lia.
  rewrite decide_False by (rewrite !Z.sgn_pos by lia; lia).
  rewrite !Z.abs_eq by lia.
  case_decide as Hpq.
  - assert (x = m) as -> by lia.
    rewrite Z.div_same by lia. simpl.
    exists 0%nat. split; [done|]. rewrite block_size_0. split; [lia|]. lia.
  - simpl. rewrite Z.max_r by lia.
    exists (Z.to_nat (Z.log2_up ((x + m - 1) / m))). split; [done|]. split.
    + apply Hlvl. lia.
    + intros j Hj. apply Hlvl in Hj. lia.
Qed.

Lemma get_level_total self size_mb :
  0 < min_size self → ∃ k, _get_level self size_mb = Ok k.
Proof. intros Hm. destruct (get_level_spec self size_mb Hm) as (k & ? & _). eauto. Qed.

(** The level of a block size is its level. *)
Lemma get_level_block_size self k :
  0 < min_size self → _get_level self (block_size (min_size self) k) = Ok k.
Proof.
  intros Hm.
  destruct (get_level_spec self (block_size (min_size self) k) Hm) as (k' & -> & Hle & Hmin).
  f_equal.
  pose proof (block_size_le (min_size self) 0 k Hm ltac:(lia)) as H0.
  rewrite block_size_0 in H0.
  specialize (Hmin k ltac:(lia)).
  destruct (decide (k' = k)) as [|Hne]; [done|].
  pose proof (block_size_lt (min_size self) k' k Hm ltac:(lia)). lia.
Qed.

(** A request of at most the minimum size, non-positive ones included, is a
    request for level 0. *)
Lemma get_level_small self size_mb :
  0 < min_size self → size_mb ≤ min_size self → _get_level self size_mb = Ok 0%nat.
Proof.
  intros Hm Hle.
  destruct (get_level_spec self size_mb Hm) as (k & -> & _ & Hmin).
  f_equal. specialize (Hmin 0%nat). rewrite block_size_0 in Hmin. lia.
Qed.


End get_level.

(** ** Sums of sizes *)

Section totals.

Lemma level_total_size m l (X : gset Z) :
  level_total m l X = Z.of_nat (size X) * block_size m l.
Proof.
  unfold level_total, set_fold, size, set_size. simpl.
  induction (elements X) as [|x xs IH]; simpl; [done|]. rewrite IH. lia.
Qed.

Lemma level_total_empty m l : level_total m l ∅ = 0.
Proof. by rewrite level_total_size, size_empty. Qed.

Lemma level_total_remove m l (X : gset Z) a :
  a ∈ X → level_total m l (X ∖ {[ a ]}) = level_total m l X - block_size m l.
Proof.
  intros Ha. rewrite !level_total_size, size_difference by set_solver.
  rewrite size_singleton.
  assert (size X ≠ 0%nat) by (apply size_non_empty_iff; set_solver).
  replace (Z.of_nat (size X - 1)) with (Z.of_nat (size X) - 1) by lia. lia.
Qed.

Lemma level_total_add m l (X : gset Z) a :
  a ∉ X → level_total m l (X ∪ {[ a ]}) = level_total m l X + block_size m l.
Proof.
  intros Ha. rewrite !level_total_size, size_union by set_solver.
  rewrite size_singleton, Nat2Z.inj_add. lia.
Qed.

Lemma free_total_from_update m l0 (fb : list (gset Z)) l X X' :
  fb !! l = Some X →
  free_total_from m l0 (<[ l := X' ]> fb)
  = free_total_from m l0 fb - level_total m (l0 + l) X + level_total m (l0 + l) X'.
Proof.
  revert l0 l. induction fb as [|Y fb IH]; intros l0 l Hl; [done|].
  destruct l as [|l]; simpl in *.
  - injection Hl as ->. rewrite Nat.add_0_r. lia.
  - rewrite (IH (S l0) l Hl). replace (S l0 + l)%nat with (l0 + S l)%nat by lia. lia.
Qed.

Lemma free_total_from_replicate m l0 n : free_total_from m l0 (replicate n ∅) = 0.
Proof.
  revert l0. induction n as [|n IH]; intros l0; simpl; [done|].
  rewrite IH, level_total_empty. done.
Qed.

Lemma allocated_sum_empty : allocated_sum ∅ = 0.
Proof. apply map_fold_empty. Qed.

Lemma allocated_sum_insert (allocated : gmap Z Z) a size :
  allocated !! a = None →
  allocated_sum (<[ a := size ]> allocated) = allocated_sum allocated + size.
Proof.
  intros Ha. unfold allocated_sum.
  rewrite map_fold_insert_L; [done| |done]. intros. lia.
Qed.

Lemma allocated_sum_delete (allocated : gmap Z Z) a size :
  allocated !! a = Some size →
  allocated_sum (delete a allocated) = allocated_sum allocated - size.
Proof.
  intros Ha. unfold allocated_sum.
  rewrite (map_fold_delete_L _ _ a size allocated); [lia| |done]. intros. lia.
Qed.

End totals.

(** ** Replacing blocks by blocks of the same region *)

Section geometry_lemmas.
Context (m T : Z) (L : nat) (Hm : 0 < m).

Lemma block_sized_len_pos b : block_sized m L b → 0 < block_len m b.
Proof.
  destruct b as [l a|a sz]; simpl.
  - intros _. by apply block_size_pos.
  - intros (k & _ & ->). by apply block_size_pos.
Qed.

Lemma geometry_len_pos B b : geometry m T L B → B b → 0 < block_len m b.
Proof. intros HB Hb. by apply block_sized_len_pos, (geo_sized _ _ _ _ HB). Qed.

(** A block covers its own first address. *)
Lemma covers_start B b : geometry m T L B → B b → covers m b (block_addr b).
Proof. intros HB Hb. pose proof (geometry_len_pos B b HB Hb). unfold covers. lia. Qed.

(** Two blocks of a tiling that start at the same address are one block. *)
Lemma geometry_same_addr B b1 b2 :
  geometry m T L B → B b1 → B b2 → block_addr b1 = block_addr b2 → b1 = b2.
Proof.
  intros HB H1 H2 Heq.
  apply (geo_no_overlap _ _ _ _ HB b1 b2 (block_addr b1)); [done..| |].
  - by eapply covers_start.
  - rewrite Heq. by eapply covers_start.
Qed.

(** The step every operation is made of: the blocks [R] leave, the blocks
    [A] enter, and both occupy the same addresses. *)
Lemma geometry_replace (B B' : block → Prop) (R A : list block) :
  geometry m T L B →
  (∀ b, B' b → (B b ∧ b ∉ R) ∨ b ∈ A) →
  (∀ b, B b → b ∉ R → B' b) →
  (∀ b, b ∈ A → B' b) →
  (∀ b, b ∈ R → B b) →
  (∀ b, b ∈ A → block_sized m L b ∧ (block_len m b | block_addr b)) →
  (∀ b1 b2 p, b1 ∈ A → b2 ∈ A → covers m b1 p → covers m b2 p → b1 = b2) →
  (∀ p, (∃ b, b ∈ R ∧ covers m b p) ↔ (∃ b, b ∈ A ∧ covers m b p)) →
  geometry m T L B'.
Proof.
  intros HB Hold Hkeep Hnew HR HA Hdisj Hregion.
  split.
  - intros b [[Hb _]|Hb]%Hold; [by apply (geo_sized _ _ _ _ HB)|by apply HA].
  - intros b [[Hb _]|Hb]%Hold; [by apply (geo_aligned _ _ _ _ HB)|by apply HA].
  - intros b [[Hb _]|Hb]%Hold; [by apply (geo_inside _ _ _ _ HB)|].
    pose proof (block_sized_len_pos b (proj1 (HA b Hb))) as Hpos.
    destruct (proj2 (Hregion (block_addr b))) as (r1 & Hr1 & Hc1).
    { exists b. unfold covers. split; [done|lia]. }
    destruct (proj2 (Hregion (block_addr b + block_len m b - 1))) as (r2 & Hr2 & Hc2).
    { exists b. unfold covers. split; [done|lia]. }
    pose proof (geo_inside _ _ _ _ HB r1 (HR r1 Hr1)).
    pose proof (geo_inside _ _ _ _ HB r2 (HR r2 Hr2)).
    unfold covers in *. lia.
  - intros b1 b2 p [[H1 Hn1]|H1]%Hold [[H2 Hn2]|H2]%Hold Hc1 Hc2.
    + by apply (geo_no_overlap _ _ _ _ HB b1 b2 p).
    + destruct (proj2 (Hregion p)) as (r & Hr & Hcr); [by exists b2|].
      assert (b1 = r) as -> by (by apply (geo_no_overlap _ _ _ _ HB b1 r p); auto).
      done.
    + destruct (proj2 (Hregion p)) as (r & Hr & Hcr); [by exists b1|].
      assert (b2 = r) as -> by (by apply (geo_no_overlap _ _ _ _ HB b2 r p); auto).
      done.
    + by apply (Hdisj b1 b2 p).
  - intros p Hp. destruct (geo_no_gap _ _ _ _ HB p Hp) as (b & Hb & Hc).
    destruct (decide (b ∈ R)) as [Hin|Hout].
    + destruct (proj1 (Hregion p)) as (a & Ha & Hca); [by exists b|].
      exists a. split; [by apply Hnew|done].
    + exists b. split; [by apply Hkeep|done].
Qed.

(** Membership in the free sets after one set has been replaced. *)
Lemma free_in_insert (fb : list (gset Z)) l X X' l' x :
  fb !! l = Some X →
  (∃ Y, <[ l := X' ]> fb !! l' = Some Y ∧ x ∈ Y)
  ↔ (l' = l ∧ x ∈ X') ∨ (l' ≠ l ∧ ∃ Y, fb !! l' = Some Y ∧ x ∈ Y).
Proof.
  intros Hl. pose proof (lookup_lt_Some _ _ _ Hl) as Hlt.
  destruct (decide (l' = l)) as [->|Hne].
  - rewrite list_lookup_insert_eq by done. split.
    + intros (Y & [= <-] & Hx). by left.
    + intros [[_ Hx]|[? _]]; [|done]. by exists X'.
  - rewrite list_lookup_insert_ne by done. split.
    + intros H. by right.
    + intros [[? _]|[_ H]]; done.
Qed.

End geometry_lemmas.

(** ** The four moves of the bookkeeping

    Between two calls a block in hand is kept nowhere; in the proofs it is
    counted as allocated.  [allocate] is then: take a free block, split it
    as often as needed; [deallocate] is: merge the block with its free
    buddy as often as possible, release it. *)

Section moves.
Context (m T : Z) (L : nat) (Hm : 0 < m).

Ltac in_list :=
  repeat match goal with
  | H : _ ∈ _ :: _ |- _ => apply elem_of_cons in H as [H|H]
  | H : _ ∈ [] |- _ => by apply elem_of_nil in H
  end.

Lemma inv_free_lt fb allocated l X :
  inv m T L fb allocated → fb !! l = Some X → (l < L)%nat.
Proof. intros (Hlen & _) Hl. apply lookup_lt_Some in Hl. lia. Qed.

(** A free address is not a key of the allocated map. *)
Lemma inv_free_not_allocated fb allocated l X a :
  inv m T L fb allocated → fb !! l = Some X → a ∈ X → allocated !! a = None.
Proof.
  intros (_ & Hgeo & _) Hl Ha.
  destruct (allocated !! a) as [sz|] eqn:Hsz; [|done].
  assert (FreeBlock l a = AllocatedBlock a sz) as Heq; [|done].
  apply (geometry_same_addr m T L Hm _ _ _ Hgeo); simpl; eauto.
Qed.

(** A free block becomes the block in hand. *)
Lemma inv_take fb allocated j X a :
  inv m T L fb allocated →
  fb !! j = Some X → a ∈ X →
  inv m T L (<[ j := X ∖ {[ a ]} ]> fb) (<[ a := block_size m j ]> allocated).
Proof.
  intros Hinv Hj Ha.
  pose proof (inv_free_lt _ _ _ _ Hinv Hj) as HjL.
  pose proof (inv_free_not_allocated _ _ _ _ _ Hinv Hj Ha) as Hnone.
  destruct Hinv as (Hlen & Hgeo & Hsum).
  assert (block_in fb allocated (FreeBlock j a)) as Hfree by (simpl; eauto).
  split_and!.
  - by rewrite length_insert.
  - apply (geometry_replace m T L Hm (block_in fb allocated) _
             [FreeBlock j a] [AllocatedBlock a (block_size m j)]); [done|..].
    + intros [l x|x sz] Hb; simpl in Hb.
      * apply (free_in_insert _ _ _ _ _ _ Hj) in Hb as [[-> Hx]|[Hne Hb]].
        -- apply elem_of_difference in Hx as [Hx Hxa].
           left. split; [simpl; eauto|].
           intros Hin. in_list. apply Hxa, elem_of_singleton. congruence.
        -- left. split; [done|]. intros Hin. in_list. congruence.
      * apply lookup_insert_Some in Hb as [[<- <-]|[Hne Hb]].
        -- right. apply list_elem_of_here.
        -- left. split; [done|]. intros Hin. in_list. done.
    + intros [l x|x sz] Hb Hn; simpl in *.
      * apply (free_in_insert _ _ _ _ _ _ Hj).
        destruct (decide (l = j)) as [->|Hne]; [left|by right].
        split; [done|]. destruct Hb as (Y & HY & Hx).
        assert (Y = X) as -> by congruence.
        apply elem_of_difference. split; [done|].
        intros ->%elem_of_singleton. apply Hn, list_elem_of_here.
      * rewrite lookup_insert_ne; [done|]. congruence.
    + intros b Hb. in_list. subst b. simpl. by rewrite lookup_insert_eq.
    + intros b Hb. in_list. by subst b.
    + intros b Hb. in_list. subst b. split; [simpl; eauto|].
      apply (geo_aligned _ _ _ _ Hgeo _ Hfree).
    + intros b1 b2 p H1 H2 _ _. in_list. congruence.
    + intros p. split; intros (b & Hb & Hc); in_list; subst b;
        eexists; (split; [apply list_elem_of_here|]); done.
  - rewrite (free_total_from_update _ _ _ _ X) by done.
    rewrite level_total_remove by done.
    rewrite allocated_sum_insert by done. simpl. lia.
Qed.

(** The block in hand is returned to its level. *)
Lemma inv_release fb allocated l X c :
  inv m T L fb allocated →
  allocated !! c = Some (block_size m l) →
  fb !! l = Some X →
  inv m T L (<[ l := X ∪ {[ c ]} ]> fb) (delete c allocated).
Proof.
  intros Hinv Hc Hl.
  pose proof (inv_free_lt _ _ _ _ Hinv Hl) as HlL.
  assert (c ∉ X) as Hfresh.
  { intros Hin. pose proof (inv_free_not_allocated _ _ _ _ _ Hinv Hl Hin). congruence. }
  destruct Hinv as (Hlen & Hgeo & Hsum).
  assert (block_in fb allocated (AllocatedBlock c (block_size m l))) as Hhand by done.
  split_and!.
  - by rewrite length_insert.
  - apply (geometry_replace m T L Hm (block_in fb allocated) _
             [AllocatedBlock c (block_size m l)] [FreeBlock l c]); [done|..].
    + intros [l' x|x sz] Hb; simpl in Hb.
      * apply (free_in_insert _ _ _ _ _ _ Hl) in Hb as [[-> Hx]|[Hne Hb]].
        -- apply elem_of_union in Hx as [Hx|Hx];
             [|apply elem_of_singleton in Hx as ->].
           ++ left. split; [simpl; eauto|]. intros Hin. in_list. done.
           ++ right. apply list_elem_of_here.
        -- left. split; [done|]. intros Hin. in_list. done.
      * apply lookup_delete_Some in Hb as [Hne Hb].
        left. split; [done|]. intros Hin. in_list. congruence.
    + intros [l' x|x sz] Hb Hn; simpl in *.
      * apply (free_in_insert _ _ _ _ _ _ Hl).
        destruct (decide (l' = l)) as [->|Hne]; [left|by right].
        split; [done|]. destruct Hb as (Y & HY & Hx).
        assert (Y = X) as -> by congruence. apply elem_of_union. by left.
      * apply lookup_delete_Some. split; [|done].
        intros <-. apply Hn. assert (sz = block_size m l) as -> by congruence.
        apply list_elem_of_here.
    + intros b Hb. in_list. subst b. simpl.
      rewrite list_lookup_insert_eq by (by apply lookup_lt_Some in Hl).
      eexists. split; [done|]. apply elem_of_union. right. by apply elem_of_singleton.
    + intros b Hb. in_list. by subst b.
    + intros b Hb. in_list. subst b. split; [done|].
      apply (geo_aligned _ _ _ _ Hgeo _ Hhand).
    + intros b1 b2 p H1 H2 _ _. in_list. congruence.
    + intros p. split; intros (b & Hb & Hcov); in_list; subst b;
        eexists; (split; [apply list_elem_of_here|]); done.
  - rewrite (free_total_from_update _ _ _ _ X) by done.
    rewrite level_total_add by done.
    rewrite (allocated_sum_delete _ _ (block_size m l)) by done. simpl. lia.
Qed.

Lemma allocated_sum_update (allocated : gmap Z Z) a old new :
  allocated !! a = Some old →
  allocated_sum (<[ a := new ]> allocated) = allocated_sum allocated - old + new.
Proof.
  intros Ha. rewrite <- insert_delete_eq.
  rewrite allocated_sum_insert by apply lookup_delete_eq.
  by rewrite (allocated_sum_delete _ _ old).
Qed.

(** The block in hand is halved: it keeps the lower half, the upper half
    goes to the free set one level down. *)
Lemma inv_split fb allocated l X a :
  inv m T L fb allocated →
  allocated !! a = Some (block_size m (S l)) →
  fb !! l = Some X →
  inv m T L (<[ l := X ∪ {[ a + block_size m l ]} ]> fb) (<[ a := block_size m l ]> allocated).
Proof.
  intros Hinv Ha Hl.
  pose proof (inv_free_lt _ _ _ _ Hinv Hl) as HlL.
  destruct Hinv as (Hlen & Hgeo & Hsum).
  pose proof (block_size_pos m l Hm) as Hpos.
  pose proof (block_size_S m l) as HS.
  assert (block_in fb allocated (AllocatedBlock a (block_size m (S l)))) as Hhand by done.
  assert (a + block_size m l ∉ X) as Hfresh.
  { intros Hin.
    assert (FreeBlock l (a + block_size m l) = AllocatedBlock a (block_size m (S l))) as Heq;
      [|done].
    apply (geo_no_overlap _ _ _ _ Hgeo _ _ (a + block_size m l)); [simpl; eauto|done|..];
      unfold covers; simpl; lia. }
  split_and!.
  - by rewrite length_insert.
  - apply (geometry_replace m T L Hm (block_in fb allocated) _
             [AllocatedBlock a (block_size m (S l))]
             [AllocatedBlock a (block_size m l); FreeBlock l (a + block_size m l)]); [done|..].
    + intros [l' x|x sz] Hb; simpl in Hb.
      * apply (free_in_insert _ _ _ _ _ _ Hl) in Hb as [[-> Hx]|[Hne Hb]].
        -- apply elem_of_union in Hx as [Hx|Hx];
             [|apply elem_of_singleton in Hx as ->].
           ++ left. split; [simpl; eauto|]. intros Hin. in_list. done.
           ++ right. apply elem_of_cons. right. apply list_elem_of_here.
        -- left. split; [done|]. intros Hin. in_list. done.
      * apply lookup_insert_Some in Hb as [[<- <-]|[Hne Hb]].
        -- right. apply list_elem_of_here.
        -- left. split; [done|]. intros Hin. in_list. congruence.
    + intros [l' x|x sz] Hb Hn; simpl in *.
      * apply (free_in_insert _ _ _ _ _ _ Hl).
        destruct (decide (l' = l)) as [->|Hne]; [left|by right].
        split; [done|]. destruct Hb as (Y & HY & Hx).
        assert (Y = X) as -> by congruence. apply elem_of_union. by left.
      * rewrite lookup_insert_ne; [done|].
        intros <-. apply Hn. assert (sz = block_size m (S l)) as -> by congruence.
        apply list_elem_of_here.
    + intros b Hb. in_list; subst b; simpl.
      * by rewrite lookup_insert_eq.
      * rewrite list_lookup_insert_eq by (by apply lookup_lt_Some in Hl).
        eexists. split; [done|]. apply elem_of_union. right. by apply elem_of_singleton.
    + intros b Hb. in_list. by subst b.
    + pose proof (geo_aligned _ _ _ _ Hgeo _ Hhand) as Hal. simpl in Hal.
      assert ((block_size m l | a)) as Hal'.
      { etrans; [|done]. apply block_size_divide. lia. }
      intros b Hb. in_list; subst b; simpl.
      * split; [exists l; split; [lia|done]|done].
      * split; [done|]. apply Z.divide_add_r; [done|apply Z.divide_refl].
    + intros b1 b2 p H1 H2 Hc1 Hc2. in_list; subst b1 b2; try done;
        unfold covers in *; simpl in *; lia.
    + intros p. split.
      * intros (b & Hb & Hc). in_list. subst b. unfold covers in Hc. simpl in Hc.
        destruct (decide (p < a + block_size m l)).
        -- exists (AllocatedBlock a (block_size m l)).
           split; [apply list_elem_of_here|]. unfold covers. simpl. lia.
        -- exists (FreeBlock l (a + block_size m l)).
           split; [apply elem_of_cons; right; apply list_elem_of_here|].
           unfold covers. simpl. lia.
      * intros (b & Hb & Hc). exists (AllocatedBlock a (block_size m (S l))).
        split; [apply list_elem_of_here|].
        in_list; subst b; unfold covers in *; simpl in *; lia.
  - rewrite (free_total_from_update _ _ _ _ X) by done.
    rewrite level_total_add by done.
    rewrite (allocated_sum_update _ _ (block_size m (S l))) by done. simpl. lia.
Qed.

(** The block in hand absorbs its buddy, found free by the XOR of the
    coalescing loop, and moves one level up. *)
Lemma inv_merge fb allocated l X c :
  inv m T L fb allocated →
  allocated !! c = Some (block_size m l) →
  (S l < L)%nat →
  fb !! l = Some X →
  Z.lxor c (block_size m l) ∈ X →
  inv m T L (<[ l := X ∖ {[ Z.lxor c (block_size m l) ]} ]> fb)
    (<[ Z.min c (Z.lxor c (block_size m l)) := block_size m (S l) ]> (delete c allocated)).
Proof.
  intros Hinv Hc HlL Hl Hb.
  pose proof (inv_free_not_allocated _ _ _ _ _ Hinv Hl Hb) as Hbnone.
  destruct Hinv as (Hlen & Hgeo & Hsum).
  pose proof (block_size_pos m l Hm) as Hpos.
  pose proof (block_size_S m l) as HS.
  set (d := block_size m l) in *.
  set (b := Z.lxor c d) in *.
  assert (block_in fb allocated (AllocatedBlock c d)) as Hhand by done.
  assert (block_in fb allocated (FreeBlock l b)) as Hbud by (simpl; eauto).
  pose proof (geo_aligned _ _ _ _ Hgeo _ Hhand) as Halc.
  pose proof (geo_aligned _ _ _ _ Hgeo _ Hbud) as Halb.
  pose proof (geo_inside _ _ _ _ Hgeo _ Hhand) as [Hc0 _].
  simpl in Halc, Halb, Hc0. fold d in Halb.
  assert ((b = c + d ∧ (2 * d | c)) ∨ (b = c - d ∧ (2 * d | c - d))) as Hxor
    by (by apply xor_buddy_aligned).
  clearbody b.
  set (lo := Z.min c b).
  assert ((2 * d | lo)) as Hallo.
  { unfold lo. destruct Hxor as [[-> ?]|[-> ?]];
      [rewrite Z.min_l by lia|rewrite Z.min_r by lia]; done. }
  assert (delete c allocated !! lo = None) as Hlonone.
  { apply lookup_delete_None. unfold lo.
    destruct Hxor as [[-> ?]|[-> ?]];
      [rewrite Z.min_l by lia; by left|rewrite Z.min_r by lia; by right]. }
  split_and!.
  - by rewrite length_insert.
  - apply (geometry_replace m T L Hm (block_in fb allocated) _
             [AllocatedBlock c d; FreeBlock l b]
             [AllocatedBlock lo (block_size m (S l))]); [done|..].
    + intros [l' x|x sz] Hblk; simpl in Hblk.
      * apply (free_in_insert _ _ _ _ _ _ Hl) in Hblk as [[-> Hx]|[Hne Hblk]].
        -- apply elem_of_difference in Hx as [Hx Hxb].
           left. split; [simpl; eauto|]. intros Hin. in_list; [done|].
           apply Hxb, elem_of_singleton. congruence.
        -- left. split; [done|]. intros Hin. in_list; [done|]. congruence.
      * apply lookup_insert_Some in Hblk as [[<- <-]|[Hne Hblk]].
        -- right. apply list_elem_of_here.
        -- apply lookup_delete_Some in Hblk as [Hne' Hblk].
           left. split; [done|]. intros Hin. in_list; [congruence|done].
    + intros [l' x|x sz] Hblk Hn; simpl in *.
      * apply (free_in_insert _ _ _ _ _ _ Hl).
        destruct (decide (l' = l)) as [->|Hne]; [left|by right].
        split; [done|]. destruct Hblk as (Y & HY & Hx).
        assert (Y = X) as -> by congruence.
        apply elem_of_difference. split; [done|].
        intros Heq. apply elem_of_singleton in Heq as ->.
        apply Hn, elem_of_cons. right. apply list_elem_of_here.
      * assert (x ≠ c) as Hxc.
        { intros ->. apply Hn. assert (sz = d) as -> by congruence.
          apply list_elem_of_here. }
        assert (x ≠ b) as Hxb by congruence.
        rewrite lookup_insert_ne by (unfold lo; lia).
        by rewrite lookup_delete_ne.
    + intros blk Hblk. in_list. subst blk. simpl. by rewrite lookup_insert_eq.
    + intros blk Hblk. in_list; by subst blk.
    + intros blk Hblk. in_list. subst blk. simpl.
      split; [by exists (S l)|]. by rewrite HS.
    + intros b1 b2 p H1 H2 _ _. in_list. congruence.
    + intros p. split.
      * intros (blk & Hblk & Hcov). exists (AllocatedBlock lo (block_size m (S l))).
        split; [apply list_elem_of_here|].
        in_list; subst blk; unfold covers, lo in *; simpl in *; lia.
      * intros (blk & Hblk & Hcov). in_list. subst blk.
        unfold covers in Hcov. simpl in Hcov.
        destruct (decide (c ≤ p < c + d)).
        -- exists (AllocatedBlock c d). split; [apply list_elem_of_here|done].
        -- exists (FreeBlock l b).
           split; [apply elem_of_cons; right; apply list_elem_of_here|].
           unfold covers, lo in *. simpl. fold d. lia.
  - rewrite (free_total_from_update _ _ _ _ X) by done.
    rewrite level_total_remove by done.
    rewrite allocated_sum_insert by done.
    rewrite (allocated_sum_delete _ _ d) by done. simpl. fold d. lia.
Qed.

End moves.

(** ** The operations keep the invariant *)

Section operations.

Lemma getitem_Some {A} (l : list A) i x : l !! i = Some x → getitem l i = Ok x.
Proof. unfold getitem. by intros ->. Qed.

Lemma getitem_lt {A} (l : list A) i : (i < length l)%nat → ∃ x, l !! i = Some x ∧ getitem l i = Ok x.
Proof.
  intros Hi. destruct (lookup_lt_is_Some_2 l i Hi) as [x Hx].
  exists x. split; [done|by apply getitem_Some].
Qed.

Section loops.
Context (m T : Z) (L : nat) (Hm : 0 < m).

(** The splitting loop: the block in hand goes from level [lvl] down to
    [level]. *)
Lemma split_loop_inv level addr allocated lvl fb :
  (level ≤ lvl)%nat → (lvl < L)%nat →
  inv m T L fb (<[ addr := block_size m lvl ]> allocated) →
  ∃ fb', split_loop m level addr lvl fb = Ok fb'
    ∧ inv m T L fb' (<[ addr := block_size m level ]> allocated).
Proof.
  revert fb. induction lvl as [|lvl IH]; intros fb Hle HL Hinv; simpl.
  - assert (level = 0)%nat as -> by lia. eauto.
  - case_decide as Hlt.
    + destruct (getitem_lt fb lvl) as (X & HX & ->).
      { destruct Hinv as (-> & _). lia. }
      simpl. apply IH; [lia..|].
      pose proof (inv_split m T L Hm _ _ lvl X addr Hinv (lookup_insert_eq _ _ _) HX) as H.
      by rewrite insert_insert_eq in H.
    + assert (level = S lvl) as -> by lia. eauto.
Qed.

(** The coalescing loop: the block in hand goes from [current_level] up as
    long as its buddy is free. *)
Lemma coalesce_inv allocated fuel fb c l :
  (l < L)%nat → allocated !! c = None →
  inv m T L fb (<[ c := block_size m l ]> allocated) →
  ∃ fb' c' l', coalesce fuel m L fb c l = Ok (fb', c', l')
    ∧ (l' < L)%nat ∧ allocated !! c' = None
    ∧ inv m T L fb' (<[ c' := block_size m l' ]> allocated).
Proof.
  revert fb c l. induction fuel as [|fuel IH]; intros fb c l HL Hc Hinv; simpl.
  - eauto 10.
  - case_decide as Hlt; [|eauto 10].
    destruct (getitem_lt fb l) as (X & HX & ->).
    { destruct Hinv as (-> & _). lia. }
    simpl. case_decide as Hb; [|eauto 10].
    pose proof (inv_free_not_allocated m T L Hm _ _ _ _ _ Hinv HX Hb) as Hbnone.
    apply lookup_insert_None in Hbnone as [Hbnone Hcb].
    apply IH; [lia| |].
    + destruct (Z.min_spec c (Z.lxor c (block_size m l))) as [[_ ->]|[_ ->]]; done.
    + pose proof (inv_merge m T L Hm _ _ l X c Hinv (lookup_insert_eq _ _ _)
                    ltac:(lia) HX Hb) as H.
      by rewrite delete_insert_eq, delete_id in H.
Qed.

End loops.

(** [allocate] on a state that satisfies the invariant: no Python error, the
    invariant again, and either nothing changed and nothing is returned, or
    the returned address is recorded with the size of the requested level. *)
Lemma allocate_scan_Inv {pop : SetPop} self level lvls :
  Inv self →
  (∀ l, l ∈ lvls → (level ≤ l < levels self)%nat) →
  ∃ s' r, allocate_scan self level lvls = Ok (s', r)
    ∧ Inv s'
    ∧ min_size s' = min_size self ∧ total_size s' = total_size self
    ∧ levels s' = levels self
    ∧ match r with
      | None => s' = self
      | Some a => allocated_blocks s' !! a = Some (block_size (min_size self) level)
      end.
Proof.
  intros HInv. induction lvls as [|lvl lvls IH]; intros Hlvls; simpl.
  - exists self, None. done.
  - destruct HInv as [Hm HL HT Hinv].
    destruct (Hlvls lvl ltac:(apply list_elem_of_here)) as [Hle Hlt].
    destruct (getitem_lt (free_blocks self) lvl) as (X & HX & ->).
    { destruct Hinv as (-> & _). lia. }
    simpl. case_decide as Hne.
    + destruct (set_pop X) as [a|] eqn:Hpop.
      2:{ by apply set_pop_None in Hpop. }
      apply set_pop_elem in Hpop.
      pose proof (inv_take _ _ _ Hm _ _ _ _ _ Hinv HX Hpop) as Htake.
      destruct (split_loop_inv _ _ _ Hm level a _ lvl _ Hle Hlt Htake) as (fb' & -> & Hinv').
      simpl. eexists _, (Some a). split; [done|]. split_and!; try done.
      simpl. by rewrite lookup_insert_eq.
    + apply IH. intros l Hl. apply Hlvls. by apply elem_of_cons; right.
Qed.

Lemma allocate_Inv {pop : SetPop} self size_mb :
  Inv self →
  ∃ level s' r, _get_level self size_mb = Ok level
    ∧ allocate self size_mb = Ok (s', r)
    ∧ Inv s'
    ∧ min_size s' = min_size self ∧ total_size s' = total_size self
    ∧ levels s' = levels self
    ∧ match r with
      | None => s' = self
      | Some a => allocated_blocks s' !! a = Some (block_size (min_size self) level)
      end.
Proof.
  intros HInv. unfold allocate.
  destruct (get_level_total self size_mb (inv_min_size _ HInv)) as (level & Hlevel).
  rewrite Hlevel. simpl.
  destruct (allocate_scan_Inv self level (seq level (levels self - level)) HInv)
    as (s' & r & ? & ?).
  { intros l Hl%elem_of_seq. lia. }
  exists level, s', r. done.
Qed.

(** [deallocate] on a state that satisfies the invariant. *)
Lemma deallocate_Inv self addr :
  Inv self →
  ∃ s', deallocate self addr = Ok (s', bool_decide (is_Some (allocated_blocks self !! addr)))
    ∧ Inv s'
    ∧ min_size s' = min_size self ∧ total_size s' = total_size self
    ∧ levels s' = levels self
    ∧ (allocated_blocks self !! addr = None → s' = self)
    ∧ (is_Some (allocated_blocks self !! addr) →
         allocated_blocks s' = delete addr (allocated_blocks self)).
Proof.
  intros HInv. unfold deallocate.
  destruct (allocated_blocks self !! addr) as [size|] eqn:Haddr.
  2:{ exists self. rewrite bool_decide_eq_false_2 by (by intros [? ?]).
      split_and!; try done. }
  rewrite bool_decide_eq_true_2 by eauto.
  destruct HInv as [Hm HL HT Hinv].
  destruct (geo_sized _ _ _ _ (proj1 (proj2 Hinv)) (AllocatedBlock addr size) Haddr)
    as (k & Hk & ->).
  rewrite get_level_block_size by done. simpl.
  destruct (coalesce_inv (min_size self) (total_size self) (levels self) Hm
              (delete addr (allocated_blocks self))
              (levels self - 1 - k) (free_blocks self) addr k Hk)
    as (fb' & c' & l' & -> & Hl' & Hc' & Hinv').
  { apply lookup_delete_eq. }
  { by rewrite insert_delete_id. }
  simpl.
  destruct (getitem_lt fb' l') as (X & HX & ->).
  { destruct Hinv' as (-> & _). lia. }
  simpl. eexists. split; [done|].
  pose proof (inv_release _ _ _ Hm _ _ l' X c' Hinv' (lookup_insert_eq _ _ _) HX) as Hrel.
  rewrite delete_insert_eq, delete_id in Hrel by done.
  split_and!; done.
Qed.

(** One call, and any sequence of calls, keeps the invariant and raises no
    Python error. *)
Lemma step_Inv self o :
  Inv self → ∃ s', step self o = Ok s' ∧ Inv s'
    ∧ min_size s' = min_size self ∧ total_size s' = total_size self.
Proof.
  intros HInv. destruct o as [pop size_mb|addr]; simpl.
  - destruct (allocate_Inv (pop := pop) self size_mb HInv)
      as (level & s' & r & _ & -> & ? & ? & ? & _).
    simpl. eauto.
  - destruct (deallocate_Inv self addr HInv) as (s' & -> & ? & ? & ? & _).
    simpl. eauto.
Qed.

Lemma run_Inv self ops :
  Inv self → ∃ s', run self ops = Ok s' ∧ Inv s'
    ∧ min_size s' = min_size self ∧ total_size s' = total_size self.
Proof.
  revert self. induction ops as [|o ops IH]; intros self HInv; simpl.
  - eauto.
  - destruct (step_Inv self o HInv) as (s1 & -> & H1 & Hm1 & HT1). simpl.
    destruct (IH s1 H1) as (s' & -> & ? & Hm' & HT'). exists s'.
    rewrite Hm', HT'. done.
Qed.

End operations.

(** ** Construction *)

Section init.




Lemma fresh_block total min n b :
  block_in (free_blocks (fresh total min n)) (allocated_blocks (fresh total min n)) b
  ↔ b = FreeBlock n 0.
Proof.
  destruct b as [l x|x sz]; simpl.
  - split.
    + intros (X & HX & Hx).
      destruct (decide (l < n)%nat) as [Hlt|Hge].
      * rewrite lookup_app_l in HX by (by rewrite length_replicate).
        apply lookup_replicate in HX as [-> _]. by apply not_elem_of_empty in Hx.
      * rewrite lookup_app_r in HX by (rewrite length_replicate; lia).
        rewrite length_replicate in HX.
        destruct (l - n)%nat as [|k] eqn:Hk; simpl in HX; [|by destruct k].
        injection HX as <-. apply elem_of_singleton in Hx as ->.
        f_equal. lia.
    + intros [= -> ->]. exists {[ 0 ]}. split; [|by apply elem_of_singleton].
      rewrite lookup_app_r by (by rewrite length_replicate).
      by rewrite length_replicate, Nat.sub_diag.
  - rewrite lookup_empty. split; [done|discriminate].
Qed.

Lemma fresh_Inv total min (n : nat) :
  0 < min → total = min * 2 ^ Z.of_nat n → Inv (fresh total min n).
Proof.
  intros Hmin Htotal.
  assert (total = block_size min n) as Hbs by (by rewrite block_size_spec).
  split; simpl; [done|lia|by rewrite Nat.sub_0_r|].
  split_and!.
  - rewrite length_app, length_replicate. simpl. lia.
  - split.
    + intros b ->%(fresh_block total min n). simpl. lia.
    + intros b ->%(fresh_block total min n). simpl. apply Z.divide_0_r.
    + intros b ->%(fresh_block total min n). simpl. lia.
    + intros b1 b2 p ->%(fresh_block total min n) ->%(fresh_block total min n) _ _. done.
    + intros p Hp. exists (FreeBlock n 0). split; [by apply (fresh_block total min n)|].
      unfold covers. simpl. lia.
  - rewrite allocated_sum_empty.
    replace (replicate n ∅ ++ [ {[ 0 ]} ]) with (<[ n := {[ 0 ]} ]> (replicate (S n) (∅ : gset Z))).
    2:{ rewrite replicate_S_end.
        rewrite insert_app_r_alt by (by rewrite length_replicate).
        by rewrite length_replicate, Nat.sub_diag. }
    rewrite (free_total_from_update _ _ _ _ ∅) by (apply lookup_replicate; split; [done|lia]).
    rewrite free_total_from_replicate, level_total_empty.
    rewrite level_total_size, size_singleton. simpl. lia.
Qed.

End init.

(** ** What the invariant gives *)

Section consequences.



Lemma Inv_conservation self :
  Inv self → free_total self + allocated_total self = total_size self.
Proof. by intros [_ _ _ (_ & _ & Hsum)]. Qed.

(** Every state a validly configured allocator can reach. *)
Lemma reachable_Inv total min (n : nat) ops :
  0 < min → total = min * 2 ^ Z.of_nat n →
  ∃ s, run (fresh total min n) ops = Ok s ∧ Inv s
    ∧ min_size s = min ∧ total_size s = total.
Proof.
  intros Hmin Htotal.
  destruct (run_Inv (fresh total min n) ops (fresh_Inv total min n Hmin Htotal))
    as (s & Hrun & HInv & Hm & HT).
  exists s. done.
Qed.

End consequences.

(** ** The claims *)





(** ** [allocate] and [deallocate] on any well-formed state *)

Section well_formed.
Context {pop : SetPop}.

Lemma split_loop_total m level addr lvl (fb : list (gset Z)) :
  (lvl ≤ length fb)%nat →
  ∃ fb', split_loop m level addr lvl fb = Ok fb' ∧ length fb' = length fb.
Proof.
  revert fb. induction lvl as [|lvl IH]; intros fb Hlen; simpl; [eauto|].
  case_decide; [|eauto].
  destruct (getitem_lt fb lvl) as (X & HX & ->); [lia|]. simpl.
  destruct (IH (<[ lvl := X ∪ {[ addr + block_size m lvl ]} ]> fb))
    as (fb' & -> & Hlen'); [rewrite length_insert; lia|].
  rewrite length_insert in Hlen'. eauto.
Qed.

(** The scan either finds every visited free set empty and changes
    nothing, or hands out an address of the first non-empty one. *)
Lemma allocate_scan_cases self level lvls :
  length (free_blocks self) = levels self →
  (∀ l, l ∈ lvls → (l < levels self)%nat) →
  ((∀ l, l ∈ lvls → free_blocks self !! l = Some ∅)
   ∧ allocate_scan self level lvls = Ok (self, None))
  ∨ (∃ l X a fb', l ∈ lvls ∧ free_blocks self !! l = Some X ∧ a ∈ X
       ∧ allocate_scan self level lvls =
           Ok (mkAllocator (total_size self) (min_size self) (levels self) fb'
                 (<[ a := block_size (min_size self) level ]> (allocated_blocks self)),
               Some a)).
Proof.
  intros Hlen. induction lvls as [|lvl lvls IH]; intros Hlvls; simpl.
  - left. split; [|done]. intros l Hl. by apply elem_of_nil in Hl.
  - pose proof (Hlvls lvl ltac:(apply list_elem_of_here)) as Hlt.
    destruct (getitem_lt (free_blocks self) lvl) as (X & HX & ->); [lia|]. simpl.
    case_decide as Hne.
    + right. destruct (set_pop X) as [a|] eqn:Hpop.
      2:{ by apply set_pop_None in Hpop. }
      apply set_pop_elem in Hpop.
      destruct (split_loop_total (min_size self) level a lvl
                  (<[ lvl := X ∖ {[ a ]} ]> (free_blocks self)))
        as (fb' & -> & _); [rewrite length_insert; lia|].
      simpl. exists lvl, X, a, fb'. split_and!; try done. apply list_elem_of_here.
    + subst X.
      destruct IH as [[Hall ->]|(l & X & a & fb' & Hl & HX' & Ha & ->)].
      * intros l Hl. apply Hlvls, elem_of_cons. by right.
      * left. split; [|done]. intros l [->|Hl]%elem_of_cons; auto.
      * right. exists l, X, a, fb'. split_and!; try done. apply elem_of_cons. by right.
Qed.

(** [allocate] returns nothing exactly when every free set from the target
    level up is empty, and then leaves the allocator as it was. *)
Lemma allocate_cases self size_mb :
  well_formed self →
  ∃ level s' r, _get_level self size_mb = Ok level
    ∧ allocate self size_mb = Ok (s', r)
    ∧ (r = None ↔ ∀ lvl, (level ≤ lvl < levels self)%nat → free_blocks self !! lvl = Some ∅)
    ∧ match r with
      | None => s' = self
      | Some a => allocated_blocks s' !! a = Some (block_size (min_size self) level)
      end.
Proof.
  intros [Hm Hlen].
  destruct (get_level_total self size_mb Hm) as (level & Hlevel).
  exists level. unfold allocate. rewrite Hlevel. simpl.
  destruct (allocate_scan_cases self level (seq level (levels self - level)) Hlen)
    as [[Hall ->]|(l & X & a & fb' & Hl & HX & Ha & ->)].
  - intros l Hl%elem_of_seq. lia.
  - exists self, None. split_and!; try done. split; [|done].
    intros _ lvl Hlvl. apply Hall, elem_of_seq. lia.
  - eexists _, (Some a). split_and!; try done.
    + split; [done|]. intros Hall. apply elem_of_seq in Hl.
      rewrite Hall in HX by lia. injection HX as <-. by apply not_elem_of_empty in Ha.
    + simpl. by rewrite lookup_insert_eq.
Qed.

End well_formed.

Section deallocate_shape.

(** A successful [deallocate], step by step. *)
Lemma deallocate_true_inv self addr s' :
  deallocate self addr = Ok (s', true) →
  ∃ size level fb c l X,
    allocated_blocks self !! addr = Some size
    ∧ _get_level self size = Ok level
    ∧ coalesce (levels self - 1 - level) (min_size self) (levels self)
        (free_blocks self) addr level = Ok (fb, c, l)
    ∧ fb !! l = Some X
    ∧ s' = mkAllocator (total_size self) (min_size self) (levels self)
             (<[ l := X ∪ {[ c ]} ]> fb) (delete addr (allocated_blocks self)).
Proof.
  unfold deallocate. destruct (allocated_blocks self !! addr) as [size|]; [|done].
  destruct (_get_level self size) as [level|] eqn:Hlevel; [|done]. simpl.
  destruct (coalesce _ _ _ _ _ _) as [[[fb c] l]|] eqn:Hco; [|done]. simpl.
  unfold getitem. destruct (fb !! l) as [X|] eqn:HX; [|done]. simpl.
  intros [= <-]. exists size, level, fb, c, l, X. split_and!; done.
Qed.

Lemma deallocate_absent self addr :
  allocated_blocks self !! addr = None → deallocate self addr = Ok (self, false).
Proof. unfold deallocate. by intros ->. Qed.

End deallocate_shape.

(** C6. Error atomicity: when every free set from the target level of the
    request up to the last level is empty, [allocate] returns [None] (out of
    memory) and the allocator is exactly as before; when the address is not
    a key of the allocated map, [deallocate] returns [False] (invalid
    address) and the allocator is exactly as before; an address
    [deallocate] has just freed is such an address, so freeing it again is
    reported the same way and changes nothing. *)
Theorem error_atomicity {pop : SetPop} (self : BuddySystemAllocator)
    (size_mb : Z) (level : nat) (addr : Z) :
  (_get_level self size_mb = Ok level →
   (∀ lvl, (level ≤ lvl < levels self)%nat → free_blocks self !! lvl = Some ∅) →
   allocate self size_mb = Ok (self, None))
  ∧ (allocated_blocks self !! addr = None → deallocate self addr = Ok (self, false))
  ∧ (∀ s', deallocate self addr = Ok (s', true) → deallocate s' addr = Ok (s', false)).
Proof.
  split_and!.
  - intros Hlevel Hempty. unfold allocate. rewrite Hlevel. simpl.
    assert (∀ l, l ∈ seq level (levels self - level) → free_blocks self !! l = Some ∅)
      as Hall by (intros l Hl%elem_of_seq; apply Hempty; lia).
    induction (seq level (levels self - level)) as [|lvl lvls IH]; simpl; [done|].
    rewrite (getitem_Some _ _ _ (Hall lvl ltac:(apply list_elem_of_here))). simpl.
    rewrite decide_False by (by intros []).
    apply IH. intros l Hl. apply Hall, elem_of_cons. by right.
  - apply deallocate_absent.
  - intros s' (size & lvl & fb & c & l & X & _ & _ & _ & _ & ->)%deallocate_true_inv.
    apply deallocate_absent. simpl. apply lookup_delete_eq.
Qed.

Lemma error_atomicity_witness :
  allocate (pop := smallest_first)
    (mkAllocator 1024 64 5 (replicate 5 ∅) {[ 0 := 1024 ]}) 64
  = Ok (mkAllocator 1024 64 5 (replicate 5 ∅) {[ 0 := 1024 ]}, None)
  ∧ deallocate (mkAllocator 1024 64 5 (replicate 5 ∅) {[ 0 := 1024 ]}) 64
    = Ok (mkAllocator 1024 64 5 (replicate 5 ∅) {[ 0 := 1024 ]}, false).
Proof.
  destruct (error_atomicity (pop := smallest_first)
              (mkAllocator 1024 64 5 (replicate 5 ∅) {[ 0 := 1024 ]}) 64 0 64)
    as (Halloc & Hdealloc & _).
  split.
  - apply Halloc; [reflexivity|].
    intros lvl [_ Hlvl]. simpl in Hlvl.
    do 5 (destruct lvl as [|lvl]; [reflexivity|]). lia.
  - apply Hdealloc. reflexivity.
Defined.

(** C10. A request of at most the minimum block size, non-positive
    requests included, is treated as a request for exactly the minimum
    block size: its level is 0, [allocate] does on it what it does on
    [min_size], and as soon as some free set is non-empty the call returns an
    address recorded with the minimum block size instead of failing. *)
Theorem small_request_gets_min_block {pop : SetPop} (self : BuddySystemAllocator)
    (size_mb : Z) :
  well_formed self → size_mb ≤ min_size self →
  _get_level self size_mb = Ok 0%nat
  ∧ allocate self size_mb = allocate self (min_size self)
  ∧ ((∃ lvl X, free_blocks self !! lvl = Some X ∧ X ≠ ∅) →
     ∃ s' addr, allocate self size_mb = Ok (s', Some addr)
       ∧ allocated_blocks s' !! addr = Some (min_size self)).
Proof.
  intros Hwf Hle. pose proof Hwf as [Hm Hlen].
  pose proof (get_level_small self size_mb Hm Hle) as Hlevel.
  split; [done|]. split.
  - unfold allocate. by rewrite Hlevel, (get_level_small self (min_size self)) by (done || lia).
  - intros (lvl & X & HX & Hne).
    destruct (allocate_cases self size_mb Hwf) as (level & s' & r & Hlevel' & Halloc & Hnone & Hr).
    assert (level = 0%nat) as -> by congruence.
    destruct r as [addr|].
    + exists s', addr. split; [done|]. by rewrite block_size_0 in Hr.
    + exfalso. apply Hne.
      pose proof (lookup_lt_Some _ _ _ HX) as Hlt.
      rewrite (proj1 Hnone eq_refl lvl) in HX by lia. by injection HX.
Qed.

Lemma small_request_gets_min_block_witness :
  well_formed (fresh 1024 128 3) ∧ -5 ≤ min_size (fresh 1024 128 3)
  ∧ _get_level (fresh 1024 128 3) (-5) = Ok 0%nat
  ∧ allocate (pop := smallest_first) (fresh 1024 128 3) (-5)
    = allocate (pop := smallest_first) (fresh 1024 128 3) (min_size (fresh 1024 128 3))
  ∧ ((∃ lvl X, free_blocks (fresh 1024 128 3) !! lvl = Some X ∧ X ≠ ∅) →
     ∃ s' addr, allocate (pop := smallest_first) (fresh 1024 128 3) (-5) = Ok (s', Some addr)
       ∧ allocated_blocks s' !! addr = Some (min_size (fresh 1024 128 3))).
Proof.
  assert (well_formed (fresh 1024 128 3)) as Hwf by (split; [simpl; lia|reflexivity]).
  assert (-5 ≤ min_size (fresh 1024 128 3)) as Hle by (simpl; lia).
  split; [exact Hwf|]. split; [exact Hle|].
  exact (small_request_gets_min_block (pop := smallest_first) (fresh 1024 128 3) (-5) Hwf Hle).
Defined.




Section construction.


End construction.




(** ** Where [allocate] finds its block *)

Section allocate_found.
Context {pop : SetPop}.

Lemma set_pop_singleton a : set_pop {[ a ]} = Some a.
Proof.
  destruct (set_pop {[ a ]}) as [b|] eqn:Hpop.
  - apply set_pop_elem, elem_of_singleton in Hpop. by subst.
  - apply set_pop_None in Hpop.
    assert (a ∈ (∅ : gset Z)) as H by (rewrite <- Hpop; by apply elem_of_singleton).
    by apply not_elem_of_empty in H.
Qed.

(** The scan passes over empty free sets. *)
Lemma allocate_scan_skip self level pre lvls :
  (∀ l, l ∈ pre → free_blocks self !! l = Some ∅) →
  allocate_scan self level (pre ++ lvls) = allocate_scan self level lvls.
Proof.
  induction pre as [|l pre IH]; intros Hpre; simpl; [done|].
  rewrite (getitem_Some _ _ _ (Hpre l ltac:(apply list_elem_of_here))). simpl.
  rewrite decide_False by (by intros []).
  apply IH. intros l' Hl'. apply Hpre, elem_of_cons. by right.
Qed.

(** [allocate] when the first non-empty free set from the target level up
    is [X] on level [lvl] and [set.pop()] picks [a] from it. *)
Lemma allocate_found self size_mb level lvl X a :
  _get_level self size_mb = Ok level →
  (level ≤ lvl < levels self)%nat →
  (∀ l, (level ≤ l < lvl)%nat → free_blocks self !! l = Some ∅) →
  free_blocks self !! lvl = Some X → X ≠ ∅ →
  set_pop X = Some a →
  allocate self size_mb =
    fb ← split_loop (min_size self) level a lvl (<[ lvl := X ∖ {[ a ]} ]> (free_blocks self));
    Ok (mkAllocator (total_size self) (min_size self) (levels self) fb
          (<[ a := block_size (min_size self) level ]> (allocated_blocks self)),
        Some a).
Proof.
  intros Hlevel Hlvl Hbelow HX Hne Hpop. unfold allocate. rewrite Hlevel. simpl.
  replace (levels self - level)%nat with ((lvl - level) + S (levels self - S lvl))%nat by lia.
  rewrite seq_app. replace (level + (lvl - level))%nat with lvl by lia.
  rewrite allocate_scan_skip by (intros l Hl%elem_of_seq; apply Hbelow; lia).
  simpl. rewrite (getitem_Some _ _ _ HX). simpl.
  by rewrite decide_True, Hpop by done.
Qed.

Lemma allocate_found_singleton self size_mb level lvl a :
  _get_level self size_mb = Ok level →
  (level ≤ lvl < levels self)%nat →
  (∀ l, (level ≤ l < lvl)%nat → free_blocks self !! l = Some ∅) →
  free_blocks self !! lvl = Some {[ a ]} →
  allocate self size_mb =
    fb ← split_loop (min_size self) level a lvl (<[ lvl := ∅ ]> (free_blocks self));
    Ok (mkAllocator (total_size self) (min_size self) (levels self) fb
          (<[ a := block_size (min_size self) level ]> (allocated_blocks self)),
        Some a).
Proof.
  intros Hlevel Hlvl Hbelow HX.
  rewrite (allocate_found self size_mb level lvl {[ a ]} a Hlevel Hlvl Hbelow HX).
  - by rewrite difference_diag_L.
  - intros Heq. assert (a ∈ (∅ : gset Z)) as H by (rewrite <- Heq; by apply elem_of_singleton).
    by apply not_elem_of_empty in H.
  - apply set_pop_singleton.
Qed.

End allocate_found.

Ltac empty_below :=
  let l := fresh "l" in
  let Hl := fresh "Hl" in
  intros l Hl;
  do 4 (destruct l as [|l]; [first [reflexivity | exfalso; lia]|]);
  exfalso; lia.

(** C9. The coalescing scenario, whatever [set.pop()] picks: on the fresh
    allocator of 1024 with minimum 128, [allocate(128)], [allocate(128)],
    [allocate(256)] return 0, 128 and 256; after [deallocate(0)] and
    [deallocate(128)] the free sets hold exactly the block of 256 at 0
    (level 1) and the block of 512 at 512 (level 2), and 256 is the only
    key of the allocated map. *)
Theorem coalescing_scenario (pop1 pop2 pop3 : SetPop) :
  ∃ s0 s1 s2 s3 s4 s5,
    __init__ 1024 128 = Ok s0
    ∧ allocate (pop := pop1) s0 128 = Ok (s1, Some 0)
    ∧ allocate (pop := pop2) s1 128 = Ok (s2, Some 128)
    ∧ allocate (pop := pop3) s2 256 = Ok (s3, Some 256)
    ∧ deallocate s3 0 = Ok (s4, true)
    ∧ deallocate s4 128 = Ok (s5, true)
    ∧ free_blocks s5 = [ ∅; {[ 0 ]}; {[ 512 ]}; ∅ ]
    ∧ allocated_blocks s5 = {[ 256 := 256 ]}.
Proof.
  exists (fresh 1024 128 3),
    (mkAllocator 1024 128 4 [ {[ 128 ]}; {[ 256 ]}; {[ 512 ]}; ∅ ] {[ 0 := 128 ]}),
    (mkAllocator 1024 128 4 [ ∅; {[ 256 ]}; {[ 512 ]}; ∅ ] {[ 0 := 128; 128 := 128 ]}),
    (mkAllocator 1024 128 4 [ ∅; ∅; {[ 512 ]}; ∅ ]
       {[ 0 := 128; 128 := 128; 256 := 256 ]}),
    (mkAllocator 1024 128 4 [ {[ 0 ]}; ∅; {[ 512 ]}; ∅ ] {[ 128 := 128; 256 := 256 ]}),
    (mkAllocator 1024 128 4 [ ∅; {[ 0 ]}; {[ 512 ]}; ∅ ] {[ 256 := 256 ]}).
  split_and!.
  - vm_compute. reflexivity.
  - rewrite (allocate_found_singleton _ 128 0 3 0); [vm_compute; reflexivity|reflexivity|simpl; lia| |reflexivity].
    empty_below.
  - rewrite (allocate_found_singleton _ 128 0 0 128); [vm_compute; reflexivity|reflexivity|simpl; lia| |reflexivity].
    empty_below.
  - rewrite (allocate_found_singleton _ 256 1 1 256); [vm_compute; reflexivity|reflexivity|simpl; lia| |reflexivity].
    empty_below.
  - vm_compute. reflexivity.
  - vm_compute. reflexivity.
  - reflexivity.
  - reflexivity.
Qed.

(** The exhaustion scenario of the specification, whatever [set.pop()]
    picks: on the fresh allocator of 1024 with minimum 64, [allocate(1024)]
    takes the whole space, [allocate(64)] then returns [None] and changes
    nothing, and after [deallocate(0)] the allocator is fresh again and
    [allocate(64)] returns 0. *)
Example exhaustion_scenario (pop1 pop2 pop3 : SetPop) :
  ∃ s1 s3,
    allocate (pop := pop1) (fresh 1024 64 4) 1024 = Ok (s1, Some 0)
    ∧ allocate (pop := pop2) s1 64 = Ok (s1, None)
    ∧ deallocate s1 0 = Ok (fresh 1024 64 4, true)
    ∧ allocate (pop := pop3) (fresh 1024 64 4) 64 = Ok (s3, Some 0).
Proof.
  exists (mkAllocator 1024 64 5 (replicate 5 ∅) {[ 0 := 1024 ]}),
    (mkAllocator 1024 64 5 [ {[ 64 ]}; {[ 128 ]}; {[ 256 ]}; {[ 512 ]}; ∅ ] {[ 0 := 64 ]}).
  split_and!.
  - rewrite (allocate_found_singleton _ 1024 4 4 0);
      [vm_compute; reflexivity|reflexivity|simpl; lia| |reflexivity].
    intros l Hl. lia.
  - destruct (allocate_cases (pop := pop2)
                (mkAllocator 1024 64 5 (replicate 5 ∅) {[ 0 := 1024 ]}) 64)
      as (level & s' & r & Hlevel & -> & Hnone & Hr); [split; [simpl; lia|reflexivity]|].
    assert (r = None) as ->.
    { apply Hnone. intros lvl [_ Hlvl]. simpl in Hlvl.
      do 5 (destruct lvl as [|lvl]; [reflexivity|]). lia. }
    by subst s'.
  - vm_compute. reflexivity.
  - rewrite (allocate_found_singleton _ 64 0 4 0);
      [vm_compute; reflexivity|reflexivity|simpl; lia| |reflexivity].
    intros l Hl. do 4 (destruct l as [|l]; [reflexivity|]). lia.
Qed.

(** ** The coalescing loop against its specification *)

Section coalesce_refinement.
Context (m : Z) (L : nat).

Lemma coalesce_sound fuel fb c l fb' c' l' :
  (L - 1 - l ≤ fuel)%nat →
  coalesce fuel m L fb c l = Ok (fb', c', l') →
  coalesce_spec m L fb c l fb' c' l'.
Proof.
  revert fb c l. induction fuel as [|fuel IH]; intros fb c l Hfuel; simpl.
  - intros [= <- <- <-]. apply coalesce_top. lia.
  - case_decide as Hlt.
    2:{ intros [= <- <- <-]. by apply coalesce_top. }
    unfold getitem. destruct (fb !! l) as [X|] eqn:HX; [|done]. simpl.
    case_decide as Hb.
    + intros Hrec. apply (coalesce_merge _ _ _ _ _ X); [done..|].
      apply IH; [lia|done].
    + intros [= <- <- <-]. by apply (coalesce_buddy_not_free _ _ _ _ _ X).
Qed.


End coalesce_refinement.



(** ** The memory map *)

Section memory_map.

Lemma memory_map_free_entries self lvls str :
  memory_map_free self lvls str = (fs ← free_entries self lvls; Ok (map_text str fs)).
Proof.
  revert str. induction lvls as [|lvl lvls IH]; intros str; simpl; [done|].
  destruct (getitem (free_blocks self) lvl) as [X|]; simpl; [|done].
  rewrite IH. destruct (free_entries self lvls) as [fs|]; simpl; [|done].
  unfold map_text. by rewrite foldl_app, foldl_fmap.
Qed.

(** [memory_map] writes the header and then the line of every entry; the
    allocator it returns is the one it was given. *)
Lemma memory_map_text self :
  memory_map self =
    (es ← memory_map_entries self; Ok (self, map_text (map_header (total_size self)) es)).
Proof.
  unfold memory_map, memory_map_entries. rewrite memory_map_free_entries.
  destruct (free_entries self (seq 0 (levels self))) as [fs|]; simpl; [|done].
  unfold map_text, allocated_entries. by rewrite foldl_app, foldl_fmap.
Qed.

Lemma free_entries_from self pre rest :
  free_blocks self = pre ++ rest →
  free_entries self (seq (length pre) (length rest))
  = Ok (mjoin (imap (λ i, level_entries (min_size self) (length pre + i)) rest)).
Proof.
  revert pre. induction rest as [|X rest IH]; intros pre Hfb; simpl; [done|].
  rewrite (getitem_Some _ _ X).
  2:{ rewrite Hfb, lookup_app_r, Nat.sub_diag by lia. done. }
  simpl. specialize (IH (pre ++ [X])).
  rewrite length_app in IH. simpl in IH.
  replace (length pre + 1)%nat with (S (length pre)) in IH by lia.
  rewrite IH by (by rewrite <- app_assoc). simpl.
  rewrite Nat.add_0_r. do 3 f_equal. apply imap_ext. intros i Y _. simpl.
  f_equal. lia.
Qed.

Lemma free_entries_all self :
  length (free_blocks self) = levels self →
  free_entries self (seq 0 (levels self))
  = Ok (mjoin (imap (level_entries (min_size self)) (free_blocks self))).
Proof.
  intros <-. exact (free_entries_from self [] (free_blocks self) eq_refl).
Qed.

(** Which entries are written. *)
Lemma elem_of_allocated_entries self e :
  e ∈ allocated_entries self
  ↔ ∃ addr size, allocated_blocks self !! addr = Some size ∧ e = mkEntry Allocated addr size.
Proof.
  unfold allocated_entries, sorted_items. rewrite list_elem_of_fmap. split.
  - intros ([addr size] & -> & Hin). rewrite merge_sort_Permutation in Hin.
    apply elem_of_map_to_list in Hin. eauto.
  - intros (addr & size & Hin & ->). exists (addr, size). split; [done|].
    rewrite merge_sort_Permutation. by apply elem_of_map_to_list.
Qed.

Lemma elem_of_level_entries m lvl X e :
  e ∈ level_entries m lvl X ↔ ∃ addr, addr ∈ X ∧ e = mkEntry Free addr (block_size m lvl).
Proof.
  unfold level_entries, sorted. rewrite list_elem_of_fmap. split.
  - intros (addr & -> & Hin). rewrite merge_sort_Permutation in Hin.
    apply elem_of_elements in Hin. eauto.
  - intros (addr & Hin & ->). exists addr. split; [done|].
    rewrite merge_sort_Permutation. by apply elem_of_elements.
Qed.

Lemma elem_of_free_entries m (fb : list (gset Z)) e :
  e ∈ mjoin (imap (level_entries m) fb)
  ↔ ∃ lvl X addr, fb !! lvl = Some X ∧ addr ∈ X ∧ e = mkEntry Free addr (block_size m lvl).
Proof.
  rewrite list_elem_of_join. split.
  - intros (l & He & (lvl & X & -> & HX)%elem_of_lookup_imap).
    apply elem_of_level_entries in He as (addr & Haddr & ->). eauto 10.
  - intros (lvl & X & addr & HX & Haddr & ->).
    exists (level_entries m lvl X). split.
    + apply elem_of_level_entries. eauto.
    + apply elem_of_lookup_imap. eauto.
Qed.

(** The entries are the blocks. *)
Lemma elem_of_entries self e :
  e ∈ allocated_entries self ++ mjoin (imap (level_entries (min_size self)) (free_blocks self))
  ↔ ∃ b, has_block self b ∧ e = entry_of_block (min_size self) b.
Proof.
  rewrite elem_of_app, elem_of_allocated_entries, elem_of_free_entries. split.
  - intros [(addr & size & Hin & ->)|(lvl & X & addr & HX & Haddr & ->)].
    + by exists (AllocatedBlock addr size).
    + exists (FreeBlock lvl addr). split; [|done]. simpl. eauto.
  - intros ([lvl addr|addr size] & Hb & ->); simpl in *.
    + right. destruct Hb as (X & HX & Haddr). eauto 10.
    + left. eauto.
Qed.

(** Sorting distinct keys gives a strictly ascending list. *)
Lemma StronglySorted_strict {A} (R : relation A) (key : A → Z) (l : list A) :
  (∀ x y, R x y → key x ≤ key y) →
  NoDup (key <$> l) → StronglySorted R l →
  StronglySorted (λ x y, key x < key y) l.
Proof.
  intros HR Hnd Hs. induction Hs as [|x l Hs IH Hall]; [constructor|].
  apply NoDup_cons in Hnd as [Hx Hnd]. constructor; [by apply IH|].
  apply Forall_forall. intros y Hy.
  pose proof (HR x y (proj1 (Forall_forall _ _) Hall y Hy)) as Hle.
  destruct (decide (key x = key y)) as [Heq|Hne]; [|lia].
  exfalso. apply Hx. rewrite Heq. by apply list_elem_of_fmap_2.
Qed.

Global Instance pair_le_trans : Transitive pair_le.
Proof. intros [a1 b1] [a2 b2] [a3 b3]. unfold pair_le. simpl. lia. Qed.

Global Instance pair_le_total : Total pair_le.
Proof. intros [a1 b1] [a2 b2]. unfold pair_le. simpl. lia. Qed.

Lemma allocated_entries_ascending self : ascending (allocated_entries self).
Proof.
  unfold ascending, allocated_entries, sorted_items.
  apply (StronglySorted_fmap _ (λ x y : Z * Z, x.1 < y.1)); [done|].
  apply (StronglySorted_strict pair_le fst).
  - intros [a1 b1] [a2 b2]. unfold pair_le. simpl. lia.
  - rewrite merge_sort_Permutation. apply NoDup_fst_map_to_list.
  - apply StronglySorted_merge_sort; apply _.
Qed.

Lemma level_entries_ascending m lvl X : ascending (level_entries m lvl X).
Proof.
  unfold ascending, level_entries, sorted.
  apply (StronglySorted_fmap _ Z.lt); [done|].
  apply (StronglySorted_strict Z.le id).
  - done.
  - rewrite list_fmap_id, merge_sort_Permutation. apply NoDup_elements.
  - apply StronglySorted_merge_sort; apply _.
Qed.

Lemma ascending_NoDup es : ascending es → NoDup es.
Proof.
  induction 1 as [|e es Hs IH Hall]; constructor; [|done].
  intros Hin. pose proof (proj1 (Forall_forall _ _) Hall e Hin). simpl in *. lia.
Qed.

Lemma free_entries_NoDup m (fb : list (gset Z)) k :
  0 < m → NoDup (mjoin (imap (λ i, level_entries m (k + i)) fb)).
Proof.
  intros Hm. revert k. induction fb as [|X fb IH]; intros k; simpl; [constructor|].
  apply NoDup_app. split_and!.
  - apply ascending_NoDup, level_entries_ascending.
  - intros e (addr & _ & ->)%elem_of_level_entries
      (l & He & (i & Y & -> & HY)%elem_of_lookup_imap)%list_elem_of_join.
    simpl in He. apply elem_of_level_entries in He as (addr' & _ & [= _ Hsize]).
    apply block_size_inj in Hsize; [lia|done].
  - rewrite (imap_ext _ (λ i, level_entries m (S k + i))); [apply IH|].
    intros i Y _. simpl. f_equal. lia.
Qed.

Lemma entries_NoDup self :
  0 < min_size self →
  NoDup (allocated_entries self
         ++ mjoin (imap (level_entries (min_size self)) (free_blocks self))).
Proof.
  intros Hm. apply NoDup_app. split_and!.
  - apply ascending_NoDup, allocated_entries_ascending.
  - intros e (addr & size & _ & ->)%elem_of_allocated_entries
      (lvl & X & addr' & _ & _ & [=])%elem_of_free_entries.
  - apply (free_entries_NoDup _ _ 0 Hm).
Qed.

End memory_map.

(** C8, as the code has it.  On a state that satisfies the invariant (so on
    every state a validly configured allocator reaches) [memory_map] raises
    no error and returns the allocator unchanged together with the header
    followed by one line per block: first the allocated blocks in ascending
    address order, then the free blocks level by level, in ascending address
    order inside each level; the list as a whole is not in address order.  A
    line gives the first address, the last address and the size of its
    block, not its level.  No entry is written twice, every entry lies
    inside [0, total_size), and every address of that range is in the range
    of exactly one entry: no gap, no overlap. *)
Theorem memory_map_lists_every_block (self : BuddySystemAllocator) :
  Inv self →
  ∃ es,
    memory_map_entries self = Ok es
    ∧ memory_map self = Ok (self, map_text (map_header (total_size self)) es)
    ∧ es = allocated_entries self
           ++ mjoin (imap (level_entries (min_size self)) (free_blocks self))
    ∧ ascending (allocated_entries self)
    ∧ (∀ lvl X, free_blocks self !! lvl = Some X →
         ascending (level_entries (min_size self) lvl X))
    ∧ NoDup es
    ∧ (∀ e, e ∈ es → 0 ≤ entry_addr e ∧ entry_addr e + entry_size e ≤ total_size self)
    ∧ (∀ p, 0 ≤ p < total_size self →
         ∃ e, e ∈ es ∧ entry_covers e p
           ∧ ∀ e', e' ∈ es → entry_covers e' p → e' = e).
Proof.
  intros [Hm HL HT (Hlen & Hgeo & Hsum)].
  assert (memory_map_entries self
          = Ok (allocated_entries self
                ++ mjoin (imap (level_entries (min_size self)) (free_blocks self)))) as Hes.
  { unfold memory_map_entries. by rewrite free_entries_all. }
  eexists. split; [exact Hes|]. split_and!.
  - by rewrite memory_map_text, Hes.
  - done.
  - apply allocated_entries_ascending.
  - intros lvl X _. apply level_entries_ascending.
  - by apply entries_NoDup.
  - intros e (b & Hb & ->)%elem_of_entries.
    pose proof (geo_inside _ _ _ _ Hgeo b Hb). by destruct b.
  - intros p Hp. destruct (geo_no_gap _ _ _ _ Hgeo p Hp) as (b & Hb & Hcov).
    exists (entry_of_block (min_size self) b). split_and!.
    + apply elem_of_entries. eauto.
    + by destruct b.
    + intros e' (b' & Hb' & ->)%elem_of_entries Hcov'. f_equal.
      apply (geo_no_overlap _ _ _ _ Hgeo b' b p); try done. by destruct b'.
Qed.

Lemma memory_map_lists_every_block_witness :
  Inv (fresh 1024 128 3)
  ∧ ∃ es,
      memory_map_entries (fresh 1024 128 3) = Ok es
      ∧ memory_map (fresh 1024 128 3)
        = Ok (fresh 1024 128 3, map_text (map_header (total_size (fresh 1024 128 3))) es)
      ∧ es = allocated_entries (fresh 1024 128 3)
             ++ mjoin (imap (level_entries (min_size (fresh 1024 128 3)))
                         (free_blocks (fresh 1024 128 3)))
      ∧ ascending (allocated_entries (fresh 1024 128 3))
      ∧ (∀ lvl X, free_blocks (fresh 1024 128 3) !! lvl = Some X →
           ascending (level_entries (min_size (fresh 1024 128 3)) lvl X))
      ∧ NoDup es
      ∧ (∀ e, e ∈ es →
           0 ≤ entry_addr e ∧ entry_addr e + entry_size e ≤ total_size (fresh 1024 128 3))
      ∧ (∀ p, 0 ≤ p < total_size (fresh 1024 128 3) →
           ∃ e, e ∈ es ∧ entry_covers e p
             ∧ ∀ e', e' ∈ es → entry_covers e' p → e' = e).
Proof.
  assert (Inv (fresh 1024 128 3)) as HInv by (apply fresh_Inv; [lia|reflexivity]).
  split; [exact HInv|].
  exact (memory_map_lists_every_block (fresh 1024 128 3) HInv).
Defined.

(** C8 fails as stated: after [allocate(128)], [allocate(128)],
    [deallocate(0)] on the fresh allocator of 1024 with minimum 128, the map
    starts with the allocated block at 128 and only then lists the free
    block at 0. *)
Lemma memory_map_not_in_address_order :
  run (fresh 1024 128 3)
    [Allocate smallest_first 128; Allocate smallest_first 128; Deallocate 0]
  = Ok (mkAllocator 1024 128 4 [ {[ 0 ]}; {[ 256 ]}; {[ 512 ]}; ∅ ] {[ 128 := 128 ]})
  ∧ memory_map_entries
      (mkAllocator 1024 128 4 [ {[ 0 ]}; {[ 256 ]}; {[ 512 ]}; ∅ ] {[ 128 := 128 ]})
    = Ok [ mkEntry Allocated 128 128; mkEntry Free 0 128;
           mkEntry Free 256 256; mkEntry Free 512 512 ]
  ∧ ¬ Sorted Z.le (entry_addr <$> [ mkEntry Allocated 128 128; mkEntry Free 0 128;
                                    mkEntry Free 256 256; mkEntry Free 512 512 ])
  ∧ memory_map
      (mkAllocator 1024 128 4 [ {[ 0 ]}; {[ 256 ]}; {[ 512 ]}; ∅ ] {[ 128 := 128 ]})
    = Ok (mkAllocator 1024 128 4 [ {[ 0 ]}; {[ 256 ]}; {[ 512 ]}; ∅ ] {[ 128 := 128 ]},
      "Buddy System Memory Map (1024MB total)" +:+ newline
      +:+ "------------------------------------------------------------" +:+ newline
      +:+ "Allocated:      128-     255 (128MB)" +:+ newline
      +:+ "Free:            0-     127 (128MB)" +:+ newline
      +:+ "Free:          256-     511 (256MB)" +:+ newline
      +:+ "Free:          512-    1023 (512MB)" +:+ newline).
Proof.
  split_and!.
  - vm_compute. reflexivity.
  - vm_compute. reflexivity.
  - simpl. intros Hsorted. apply Sorted_inv in Hsorted as [_ Hhd].
    apply HdRel_inv in Hhd. lia.
  - vm_compute. reflexivity.
Qed.

(** ** Round trip *)

Section round_trip.

(** The free sets after the splitting loop. *)
Lemma split_loop_lookup m k a j (fb fb' : list (gset Z)) :
  split_loop m k a j fb = Ok fb' →
  ∀ i, fb' !! i =
    if decide (k ≤ i < j)%nat then (λ X, X ∪ {[ a + block_size m i ]}) <$> fb !! i
    else fb !! i.
Proof.
  revert fb. induction j as [|j IH]; intros fb; simpl.
  - intros [= <-] i. by rewrite decide_False by lia.
  - case_decide as Hlt.
    2:{ intros [= <-] i. by rewrite decide_False by lia. }
    unfold getitem. destruct (fb !! j) as [X|] eqn:HX; [|done]. simpl.
    intros Hrec i. rewrite (IH _ Hrec i).
    pose proof (lookup_lt_Some _ _ _ HX) as Hj.
    destruct (decide (i = j)) as [->|Hne].
    + rewrite decide_False, decide_True by lia.
      by rewrite list_lookup_insert_eq, HX by done.
    + rewrite list_lookup_insert_ne by done.
      destruct (decide (k ≤ i < j)%nat); [by rewrite decide_True by lia|].
      by rewrite decide_False by lia.
Qed.

(** Where a successful [allocate] found its block. *)
Lemma allocate_scan_Some_inv {pop : SetPop} self level lvls s' a :
  allocate_scan self level lvls = Ok (s', Some a) →
  ∃ pre j post X fb',
    lvls = pre ++ j :: post
    ∧ (∀ l, l ∈ pre → free_blocks self !! l = Some ∅)
    ∧ free_blocks self !! j = Some X ∧ a ∈ X
    ∧ split_loop (min_size self) level a j (<[ j := X ∖ {[ a ]} ]> (free_blocks self)) = Ok fb'
    ∧ s' = mkAllocator (total_size self) (min_size self) (levels self) fb'
             (<[ a := block_size (min_size self) level ]> (allocated_blocks self)).
Proof.
  induction lvls as [|lvl lvls IH]; simpl; [done|].
  unfold getitem. destruct (free_blocks self !! lvl) as [X|] eqn:HX; [|done]. simpl.
  case_decide as Hne.
  - destruct (set_pop X) as [b|] eqn:Hpop; [|done].
    destruct (split_loop _ _ _ _ _) as [fb'|] eqn:Hsplit; [|done]. simpl.
    intros [= <- <-]. exists [], lvl, lvls, X, fb'. split_and!; try done.
    + intros l Hl. by apply elem_of_nil in Hl.
    + by apply set_pop_elem.
  - subst X. intros (pre & j & post & X & fb' & -> & Hpre & ? & ? & ? & ?)%IH.
    exists (lvl :: pre), j, post, X, fb'. split_and!; try done.
    intros l [->|Hl]%elem_of_cons; auto.
Qed.

Lemma seq_split_inv k n pre j post :
  seq k n = pre ++ j :: post →
  j = (k + length pre)%nat ∧ (j < k + n)%nat ∧ ∀ l, (k ≤ l < j)%nat → l ∈ pre.
Proof.
  intros Hseq.
  assert (seq k n !! length pre = Some j) as Hj.
  { rewrite Hseq, lookup_app_r, Nat.sub_diag by lia. done. }
  apply lookup_seq in Hj as [-> Hlt]. split; [done|]. split; [lia|].
  intros l Hl.
  assert (seq k n !! (l - k)%nat = Some l) as Hlk.
  { apply lookup_seq. lia. }
  rewrite Hseq, lookup_app_l in Hlk by lia.
  by apply list_elem_of_lookup_2 in Hlk.
Qed.

Lemma allocate_Some_inv {pop : SetPop} self size_mb s' a :
  allocate self size_mb = Ok (s', Some a) →
  ∃ k j X fb',
    _get_level self size_mb = Ok k
    ∧ (k ≤ j < levels self)%nat
    ∧ (∀ l, (k ≤ l < j)%nat → free_blocks self !! l = Some ∅)
    ∧ free_blocks self !! j = Some X ∧ a ∈ X
    ∧ split_loop (min_size self) k a j (<[ j := X ∖ {[ a ]} ]> (free_blocks self)) = Ok fb'
    ∧ s' = mkAllocator (total_size self) (min_size self) (levels self) fb'
             (<[ a := block_size (min_size self) k ]> (allocated_blocks self)).
Proof.
  unfold allocate. destruct (_get_level self size_mb) as [k|] eqn:Hk; [|done]. simpl.
  intros (pre & j & post & X & fb' & Hseq & Hpre & HX & Ha & Hsplit & ->)%allocate_scan_Some_inv.
  apply seq_split_inv in Hseq as (-> & Hlt & Hbelow).
  exists k, (k + length pre)%nat, X, fb'. split_and!; try done; [lia..|].
  intros l Hl. by apply Hpre, Hbelow.
Qed.

(** With a minimum size that is a power of two, XOR with the size of a
    lower level adds that size to an address aligned to a higher level. *)
Lemma lxor_block_size_pow2 (t i j : nat) a :
  (i < j)%nat → 0 ≤ a → (block_size (2 ^ Z.of_nat t) j | a) →
  Z.lxor a (block_size (2 ^ Z.of_nat t) i) = a + block_size (2 ^ Z.of_nat t) i.
Proof.
  intros Hij Ha [q Hq]. symmetry. apply Z.add_nocarry_lxor.
  rewrite !block_size_spec, <- !Z.pow_add_r in * by lia.
  subst a. apply Z.bits_inj'. intros n Hn.
  rewrite Z.land_spec, Z.bits_0, Z.pow2_bits_eqb by lia.
  destruct (Z.eqb_spec (Z.of_nat t + Z.of_nat i) n) as [<-|]; [|apply andb_false_r].
  rewrite Z.mul_pow2_bits_low by lia. done.
Qed.

Context (m : Z) (L : nat) (t : nat) (Hpow : m = 2 ^ Z.of_nat t).


End round_trip.



(** C2 on the code.  The round trip fails when the minimum block size is
    not a power of two.  With total size 12 and minimum size 3, after
    [allocate(6)] the state has the block 6 free on level 1 and satisfies
    every invariant of the data model; [allocate(3)] then returns 6 and
    leaves 9 free on level 0, and [deallocate(6)] computes the buddy
    [6 XOR 3 = 5], finds it free nowhere and puts 6 on level 0 next to its
    real buddy 9: the free sets are [{6, 9}; {}; {}] instead of
    [{}; {6}; {}]. *)
Theorem round_trip_breaks_min_size_3 :
  run (fresh 12 3 2) [Allocate smallest_first 6]
  = Ok (mkAllocator 12 3 3 [ ∅; {[ 6 ]}; ∅ ] {[ 0 := 6 ]})
  ∧ Inv (mkAllocator 12 3 3 [ ∅; {[ 6 ]}; ∅ ] {[ 0 := 6 ]})
  ∧ no_free_buddies (mkAllocator 12 3 3 [ ∅; {[ 6 ]}; ∅ ] {[ 0 := 6 ]})
  ∧ allocate (pop := smallest_first) (mkAllocator 12 3 3 [ ∅; {[ 6 ]}; ∅ ] {[ 0 := 6 ]}) 3
    = Ok (mkAllocator 12 3 3 [ {[ 9 ]}; ∅; ∅ ] {[ 0 := 6; 6 := 3 ]}, Some 6)
  ∧ deallocate (mkAllocator 12 3 3 [ {[ 9 ]}; ∅; ∅ ] {[ 0 := 6; 6 := 3 ]}) 6
    = Ok (mkAllocator 12 3 3 [ {[ 6; 9 ]}; ∅; ∅ ] {[ 0 := 6 ]}, true)
  ∧ free_blocks (mkAllocator 12 3 3 [ {[ 6; 9 ]}; ∅; ∅ ] {[ 0 := 6 ]})
    ≠ free_blocks (mkAllocator 12 3 3 [ ∅; {[ 6 ]}; ∅ ] {[ 0 := 6 ]}).
Proof.
  assert (run (fresh 12 3 2) [Allocate smallest_first 6]
          = Ok (mkAllocator 12 3 3 [ ∅; {[ 6 ]}; ∅ ] {[ 0 := 6 ]})) as Hrun
    by (vm_compute; reflexivity).
  split_and!.
  - exact Hrun.
  - destruct (reachable_Inv 12 3 2 [Allocate smallest_first 6])
      as (s & Hs & HInv & _); [lia|reflexivity|].
    rewrite Hrun in Hs. by injection Hs as <-.
  - intros lvl X addr Hlvl HX Haddr Hbuddy _. simpl in *.
    destruct lvl as [|[|lvl]]; simpl in HX; [| |lia]; injection HX as <-.
    + by apply not_elem_of_empty in Haddr.
    + apply elem_of_singleton in Haddr as ->.
      apply elem_of_singleton in Hbuddy. vm_compute in Hbuddy. discriminate.
  - vm_compute. reflexivity.
  - vm_compute. reflexivity.
  - simpl. intros H.
    apply (f_equal (λ fb : list (gset Z), bool_decide (6 ∈ default ∅ (fb !! 0%nat)))) in H.
    vm_compute in H. discriminate H.
Qed.

(** * Further properties of the allocator *)

(** ** What a successful [allocate] does *)

Section allocate_effect.
Context {pop : SetPop}.


(** The free sets and the allocated map after a successful [allocate]. *)
Lemma allocate_Some_effect self size_mb s' a :
  allocate self size_mb = Ok (s', Some a) →
  ∃ k j X,
    _get_level self size_mb = Ok k
    ∧ (k ≤ j < levels self)%nat
    ∧ (∀ l, (k ≤ l < j)%nat → free_blocks self !! l = Some ∅)
    ∧ free_blocks self !! j = Some X ∧ a ∈ X
    ∧ total_size s' = total_size self ∧ min_size s' = min_size self
    ∧ levels s' = levels self
    ∧ allocated_blocks s' = <[ a := block_size (min_size self) k ]> (allocated_blocks self)
    ∧ ∀ i, free_blocks s' !! i =
        if decide (k ≤ i < j)%nat then Some {[ a + block_size (min_size self) i ]}
        else if decide (i = j) then Some (X ∖ {[ a ]})
        else free_blocks self !! i.
Proof.
  intros (k & j & X & fb' & Hk & Hkj & Hbelow & HX & Ha & Hsplit & ->)%allocate_Some_inv.
  exists k, j, X. split_and!; try done; try lia.
  intros i. simpl. rewrite (split_loop_lookup _ _ _ _ _ _ Hsplit i).
  pose proof (lookup_lt_Some _ _ _ HX) as Hj.
  destruct (decide (k ≤ i < j)%nat) as [Hi|Hi].
  - rewrite list_lookup_insert_ne by lia. rewrite Hbelow by done. simpl.
    by rewrite (left_id_L ∅ (∪)).
  - destruct (decide (i = j)) as [->|Hne].
    + by rewrite list_lookup_insert_eq.
    + by rewrite list_lookup_insert_ne.
Qed.

End allocate_effect.

(** X1. A successful [allocate] takes the address from the first non-empty
    free set at or above the target level, puts the upper half of every
    split on the level below, and records the address with the block size
    of the target level; every other free set and every other entry of the
    allocated map is as before. *)
Theorem allocate_splits_found_block {pop : SetPop} (self : BuddySystemAllocator)
    (size_mb : Z) (s' : BuddySystemAllocator) (addr : Z) :
  allocate self size_mb = Ok (s', Some addr) →
  ∃ level found X,
    _get_level self size_mb = Ok level
    ∧ (level ≤ found < levels self)%nat
    ∧ (∀ l, (level ≤ l < found)%nat → free_blocks self !! l = Some ∅)
    ∧ free_blocks self !! found = Some X ∧ addr ∈ X
    ∧ total_size s' = total_size self ∧ min_size s' = min_size self
    ∧ levels s' = levels self
    ∧ allocated_blocks s'
      = <[ addr := block_size (min_size self) level ]> (allocated_blocks self)
    ∧ ∀ i, free_blocks s' !! i =
        if decide (level ≤ i < found)%nat
        then Some {[ addr + block_size (min_size self) i ]}
        else if decide (i = found) then Some (X ∖ {[ addr ]})
        else free_blocks self !! i.
Proof. apply allocate_Some_effect. Qed.

Lemma allocate_splits_found_block_witness :
  ∃ level found X,
    _get_level (fresh 1024 128 3) 200 = Ok level
    ∧ (level ≤ found < levels (fresh 1024 128 3))%nat
    ∧ (∀ l, (level ≤ l < found)%nat → free_blocks (fresh 1024 128 3) !! l = Some ∅)
    ∧ free_blocks (fresh 1024 128 3) !! found = Some X ∧ 0 ∈ X
    ∧ total_size (mkAllocator 1024 128 4 [ ∅; {[ 256 ]}; {[ 512 ]}; ∅ ] {[ 0 := 256 ]})
      = total_size (fresh 1024 128 3)
    ∧ min_size (mkAllocator 1024 128 4 [ ∅; {[ 256 ]}; {[ 512 ]}; ∅ ] {[ 0 := 256 ]})
      = min_size (fresh 1024 128 3)
    ∧ levels (mkAllocator 1024 128 4 [ ∅; {[ 256 ]}; {[ 512 ]}; ∅ ] {[ 0 := 256 ]})
      = levels (fresh 1024 128 3)
    ∧ allocated_blocks (mkAllocator 1024 128 4 [ ∅; {[ 256 ]}; {[ 512 ]}; ∅ ] {[ 0 := 256 ]})
      = <[ 0 := block_size (min_size (fresh 1024 128 3)) level ]>
          (allocated_blocks (fresh 1024 128 3))
    ∧ ∀ i, free_blocks (mkAllocator 1024 128 4 [ ∅; {[ 256 ]}; {[ 512 ]}; ∅ ] {[ 0 := 256 ]})
           !! i =
        if decide (level ≤ i < found)%nat
        then Some {[ 0 + block_size (min_size (fresh 1024 128 3)) i ]}
        else if decide (i = found) then Some (X ∖ {[ 0 ]})
        else free_blocks (fresh 1024 128 3) !! i.
Proof.
  apply (allocate_splits_found_block (pop := smallest_first) (fresh 1024 128 3) 200).
  vm_compute. reflexivity.
Defined.



(** X3. On a state that satisfies the invariant, the address [allocate]
    returns was not allocated before the call, is in no free set after it,
    and its block lies inside [0, total_size) and shares no address with
    any block that was already allocated. *)
Theorem allocate_returns_unused_block {pop : SetPop} (self : BuddySystemAllocator)
    (size_mb : Z) (s' : BuddySystemAllocator) (addr : Z) :
  Inv self →
  allocate self size_mb = Ok (s', Some addr) →
  allocated_blocks self !! addr = None
  ∧ (∀ lvl X, free_blocks s' !! lvl = Some X → addr ∉ X)
  ∧ ∃ size,
      allocated_blocks s' !! addr = Some size
      ∧ 0 ≤ addr ∧ addr + size ≤ total_size self
      ∧ ∀ addr' size', allocated_blocks self !! addr' = Some size' →
          addr + size ≤ addr' ∨ addr' + size' ≤ addr.
Proof.
  intros HInv Halloc.
  destruct (allocate_Inv self size_mb HInv)
    as (level & s1 & r & Hlevel & Heq & HInv' & Hm' & HT' & HL' & Hr).
  rewrite Halloc in Heq. injection Heq as <- <-.
  apply allocate_Some_effect in Halloc
    as (k & j & X & Hk & Hkj & _ & HX & Ha & _ & _ & _ & Hmap & _).
  assert (k = level) as -> by congruence.
  destruct HInv as [Hm HL HT Hinv]. destruct HInv' as [Hm1 HL1 HT1 Hinv1].
  pose proof (inv_free_not_allocated _ _ _ Hm _ _ _ _ _ Hinv HX Ha) as Hnone.
  split; [done|]. split.
  - intros lvl Y HY Hin.
    pose proof (inv_free_not_allocated _ _ _ Hm1 _ _ _ _ _ Hinv1 HY Hin). congruence.
  - exists (block_size (min_size self) level). split; [done|].
    destruct Hinv1 as (_ & Hgeo & _).
    pose proof (geo_inside _ _ _ _ Hgeo (AllocatedBlock addr _) Hr) as Hin.
    simpl in Hin. rewrite HT' in Hin. split; [lia|]. split; [lia|].
    intros addr' size' Haddr'.
    assert (addr' ≠ addr) as Hne by congruence.
    assert (allocated_blocks s' !! addr' = Some size') as Haddr1
      by (by rewrite Hmap, lookup_insert_ne).
    pose proof (geometry_len_pos _ _ _ Hm1 _ (AllocatedBlock addr _) Hgeo Hr) as Hpos.
    simpl in Hpos.
    pose proof (geometry_len_pos _ _ _ Hm1 _ (AllocatedBlock addr' size') Hgeo Haddr1) as Hpos'.
    simpl in Hpos'.
    destruct (decide (addr + block_size (min_size self) level ≤ addr')) as [|Hlo]; [by left|].
    destruct (decide (addr' + size' ≤ addr)) as [|Hhi]; [by right|].
    exfalso.
    assert (AllocatedBlock addr (block_size (min_size self) level)
            = AllocatedBlock addr' size') as Heq; [|congruence].
    apply (geo_no_overlap _ _ _ _ Hgeo _ _ (Z.max addr addr')); try done;
      unfold covers; simpl; lia.
Qed.

Lemma allocate_returns_unused_block_witness :
  allocated_blocks (fresh 1024 128 3) !! 0 = None
  ∧ (∀ lvl X,
       free_blocks (mkAllocator 1024 128 4 [ ∅; {[ 256 ]}; {[ 512 ]}; ∅ ] {[ 0 := 256 ]})
         !! lvl = Some X → 0 ∉ X)
  ∧ ∃ size,
      allocated_blocks (mkAllocator 1024 128 4 [ ∅; {[ 256 ]}; {[ 512 ]}; ∅ ] {[ 0 := 256 ]})
        !! 0 = Some size
      ∧ 0 ≤ 0 ∧ 0 + size ≤ total_size (fresh 1024 128 3)
      ∧ ∀ addr' size', allocated_blocks (fresh 1024 128 3) !! addr' = Some size' →
          0 + size ≤ addr' ∨ addr' + size' ≤ 0.
Proof.
  apply (allocate_returns_unused_block (pop := smallest_first) (fresh 1024 128 3) 200).
  - apply fresh_Inv; [lia|reflexivity].
  - vm_compute. reflexivity.
Defined.

(** X4. A successful [allocate] moves exactly the size of the block from
    the free total to the allocated total. *)
Theorem allocate_accounting {pop : SetPop} (self : BuddySystemAllocator)
    (size_mb : Z) (s' : BuddySystemAllocator) (addr : Z) :
  Inv self →
  allocate self size_mb = Ok (s', Some addr) →
  ∃ size,
    allocated_blocks s' !! addr = Some size
    ∧ allocated_total s' = allocated_total self + size
    ∧ free_total s' = free_total self - size.
Proof.
  intros HInv Halloc.
  destruct (allocate_Inv self size_mb HInv)
    as (level & s1 & r & Hlevel & Heq & HInv' & Hm' & HT' & HL' & Hr).
  rewrite Halloc in Heq. injection Heq as <- <-.
  apply allocate_Some_effect in Halloc
    as (k & j & X & Hk & Hkj & _ & HX & Ha & _ & _ & _ & Hmap & _).
  assert (k = level) as -> by congruence.
  pose proof (Inv_conservation self HInv) as Hsum.
  pose proof (Inv_conservation s' HInv') as Hsum'.
  destruct HInv as [Hm HL HT Hinv].
  pose proof (inv_free_not_allocated _ _ _ Hm _ _ _ _ _ Hinv HX Ha) as Hnone.
  exists (block_size (min_size self) level). split; [done|].
  assert (allocated_total s' = allocated_total self + block_size (min_size self) level) as Hat.
  { unfold allocated_total. rewrite Hmap. by apply allocated_sum_insert. }
  split; [done|]. lia.
Qed.

Lemma allocate_accounting_witness :
  ∃ size,
    allocated_blocks (mkAllocator 1024 128 4 [ ∅; {[ 256 ]}; {[ 512 ]}; ∅ ] {[ 0 := 256 ]})
      !! 0 = Some size
    ∧ allocated_total (mkAllocator 1024 128 4 [ ∅; {[ 256 ]}; {[ 512 ]}; ∅ ] {[ 0 := 256 ]})
      = allocated_total (fresh 1024 128 3) + size
    ∧ free_total (mkAllocator 1024 128 4 [ ∅; {[ 256 ]}; {[ 512 ]}; ∅ ] {[ 0 := 256 ]})
      = free_total (fresh 1024 128 3) - size.
Proof.
  apply (allocate_accounting (pop := smallest_first) (fresh 1024 128 3) 200 _ 0).
  - apply fresh_Inv; [lia|reflexivity].
  - vm_compute. reflexivity.
Defined.





(** ** What a successful [deallocate] does *)

Section deallocate_effect.



(** A successful [deallocate] on a state that satisfies the invariant. *)
Lemma deallocate_Some_effect self addr size :
  Inv self → allocated_blocks self !! addr = Some size →
  ∃ k fb c l X,
    size = block_size (min_size self) k
    ∧ coalesce (levels self - 1 - k) (min_size self) (levels self)
        (free_blocks self) addr k = Ok (fb, c, l)
    ∧ fb !! l = Some X
    ∧ deallocate self addr
      = Ok (mkAllocator (total_size self) (min_size self) (levels self)
              (<[ l := X ∪ {[ c ]} ]> fb) (delete addr (allocated_blocks self)), true)
    ∧ Inv (mkAllocator (total_size self) (min_size self) (levels self)
             (<[ l := X ∪ {[ c ]} ]> fb) (delete addr (allocated_blocks self))).
Proof.
  intros HInv Hsize.
  destruct (deallocate_Inv self addr HInv) as (s' & Hde & HInv' & _).
  rewrite bool_decide_eq_true_2 in Hde by eauto.
  pose proof Hde as Hshape.
  apply deallocate_true_inv in Hshape as (size' & k & fb & c & l & X & Hsize' & Hk & Hco & HX & ->).
  assert (size' = size) as -> by congruence.
  destruct (geo_sized _ _ _ _ (proj1 (proj2 (inv_state _ HInv))) (AllocatedBlock addr size) Hsize)
    as (k0 & _ & ->).
  rewrite get_level_block_size in Hk by apply (inv_min_size _ HInv).
  injection Hk as ->.
  exists k, fb, c, l, X. done.
Qed.

End deallocate_effect.







(** ** Complete coalescing when the minimum size is a power of two *)

Section complete_coalescing.

Lemma fresh_no_free_buddies total min n : no_free_buddies (fresh total min n).
Proof.
  intros lvl X addr Hlvl HX Haddr. simpl in *.
  rewrite lookup_app_l in HX by (rewrite length_replicate; lia).
  apply lookup_replicate in HX as [-> _]. by apply not_elem_of_empty in Haddr.
Qed.

(** [allocate] adds a free block only to free sets that were empty. *)
Lemma allocate_no_free_buddies {pop : SetPop} self size_mb s' r :
  Inv self → no_free_buddies self →
  allocate self size_mb = Ok (s', r) → no_free_buddies s'.
Proof.
  intros HInv Hnfb Halloc. destruct r as [a|].
  2:{ destruct (allocate_Inv self size_mb HInv) as (? & s1 & r & _ & Heq & _ & _ & _ & _ & Hr).
      rewrite Halloc in Heq. injection Heq as <- <-. by subst s'. }
  apply allocate_Some_effect in Halloc
    as (k & j & X & _ & Hkj & _ & HX & Ha & _ & Hm' & HL' & _ & Hfb).
  pose proof (inv_min_size _ HInv) as Hm.
  intros lvl Y addr Hlvl HY Haddr Hbuddy. rewrite Hm', HL' in *.
  rewrite Hfb in HY.
  destruct (decide (k ≤ lvl < j)%nat).
  - apply (inj Some) in HY. subst Y.
    apply elem_of_singleton in Haddr, Hbuddy.
    pose proof (block_size_pos (min_size self) lvl Hm). lia.
  - destruct (decide (lvl = j)) as [->|].
    + apply (inj Some) in HY. subst Y.
      apply elem_of_difference in Haddr as [Haddr _].
      apply elem_of_difference in Hbuddy as [Hbuddy _].
      by apply (Hnfb j X addr).
    + by apply (Hnfb lvl Y addr).
Qed.

(** Where the loop of the specification stops, and what it leaves of the
    free sets. *)
Lemma coalesce_spec_stop m L fb c l fb' c' l' :
  coalesce_spec m L fb c l fb' c' l' →
  (¬ (l' < L - 1)%nat ∨ ∃ X, fb' !! l' = Some X ∧ Z.lxor c' (block_size m l') ∉ X)
  ∧ ∀ i X', fb' !! i = Some X' → ∃ X, fb !! i = Some X ∧ X' ⊆ X.
Proof.
  induction 1 as [fb c l Htop|fb c l X Hlt HX Hb|fb c l X fb' c' l' Hlt HX Hb _ [IHstop IHsub]].
  - split; [by left|]. intros i X' HX'. by exists X'.
  - split; [right; by exists X|]. intros i X' HX'. by exists X'.
  - split; [done|]. intros i X' [Y [HY Hsub]]%IHsub.
    destruct (decide (i = l)) as [->|Hne].
    + rewrite list_lookup_insert_eq in HY by (by apply lookup_lt_Some in HX).
      apply (inj Some) in HY. subst Y. exists X. split; [done|].
      intros x Hx. apply Hsub in Hx. by apply elem_of_difference in Hx as [Hx _].
    + rewrite list_lookup_insert_ne in HY by done. by exists Y.
Qed.

(** With a minimum size that is a power of two, [deallocate] stops merging
    only when the buddy is not free, so it leaves no two free buddies. *)
Lemma deallocate_no_free_buddies self (t : nat) addr s' r :
  Inv self → no_free_buddies self → min_size self = 2 ^ Z.of_nat t →
  deallocate self addr = Ok (s', r) → no_free_buddies s'.
Proof.
  intros HInv Hnfb Hpow Hde.
  destruct (allocated_blocks self !! addr) as [size|] eqn:Hsize.
  2:{ rewrite (deallocate_absent _ _ Hsize) in Hde. by injection Hde as <- <-. }
  destruct (deallocate_Some_effect self addr size HInv Hsize)
    as (k & fb & c & l & X & -> & Hco & HX & Heq & HInv').
  rewrite Hde in Heq. injection Heq as -> ->.
  apply coalesce_sound in Hco; [|lia].
  apply coalesce_spec_stop in Hco as [Hstop Hsub].
  pose proof (inv_min_size _ HInv) as Hm.
  pose proof (lookup_lt_Some _ _ _ HX) as Hl.
  destruct HInv as [_ _ _ (_ & Hgeo & _)]. destruct HInv' as [_ _ _ (_ & Hgeo' & _)].
  simpl in Hgeo'.
  intros lvl Y a Hlvl HY Ha Hbuddy Hdiv. simpl in *.
  set (d := block_size (min_size self) lvl) in *.
  assert (0 < d) as Hd by (by apply block_size_pos).
  destruct (decide (lvl = l)) as [->|Hne].
  - rewrite list_lookup_insert_eq in HY by done. apply (inj Some) in HY. subst Y.
    destruct Hstop as [Hstop|(X' & HX' & Hnot)]; [lia|].
    assert (X' = X) as -> by congruence.
    destruct (Hsub l X HX) as (X0 & HX0 & HXX0).
    assert (∀ x, 0 ≤ x → (2 * d | x) → Z.lxor x d = x + d) as Hxor.
    { intros x Hx Hx2. unfold d. rewrite Hpow.
      apply (lxor_block_size_pow2 t l (S l)); [lia|done|].
      rewrite <- Hpow, block_size_S. done. }
    assert (0 ≤ c) as Hc0.
    { apply (geo_inside _ _ _ _ Hgeo' (FreeBlock l c)). simpl.
      exists (X ∪ {[ c ]}). split; [by apply list_lookup_insert_eq|].
      apply elem_of_union. right. by apply elem_of_singleton. }
    apply elem_of_union in Ha as [Ha|Ha]; apply elem_of_union in Hbuddy as [Hbuddy|Hbuddy];
      rewrite ?elem_of_singleton in *.
    + apply (Hnfb l X0 a); auto.
    + assert (0 ≤ a) as Ha0.
      { apply (geo_inside _ _ _ _ Hgeo (FreeBlock l a)). simpl. eauto. }
      apply Hnot. rewrite <- Hbuddy, <- (Hxor a Ha0 Hdiv).
      by rewrite Z.lxor_assoc, Z.lxor_nilpotent, Z.lxor_0_r.
    + subst a. apply Hnot. by rewrite Hxor.
    + lia.
  - rewrite list_lookup_insert_ne in HY by done.
    destruct (Hsub lvl Y HY) as (X0 & HX0 & HYX0).
    apply (Hnfb lvl X0 a); auto.
Qed.

(** Both invariants hold in every state a power-of-two allocator reaches. *)
Lemma run_no_free_buddies self (t : nat) ops :
  Inv self → no_free_buddies self → min_size self = 2 ^ Z.of_nat t →
  ∃ s, run self ops = Ok s ∧ Inv s ∧ no_free_buddies s
    ∧ min_size s = min_size self ∧ total_size s = total_size self.
Proof.
  revert self. induction ops as [|o ops IH]; intros self HInv Hnfb Hpow; simpl;
    [by exists self|].
  destruct (step_Inv self o HInv) as (s1 & Hstep & HInv1 & Hm1 & HT1).
  rewrite Hstep. simpl.
  assert (no_free_buddies s1) as Hnfb1.
  { destruct o as [pop size_mb|addr]; simpl in Hstep.
    - destruct (allocate self size_mb) as [[s2 r]|] eqn:Halloc; [|done].
      simpl in Hstep. injection Hstep as <-.
      by apply (allocate_no_free_buddies (pop := pop) self size_mb s2 r).
    - destruct (deallocate self addr) as [[s2 r]|] eqn:Hde; [|done].
      simpl in Hstep. injection Hstep as <-.
      by apply (deallocate_no_free_buddies self t addr s2 r). }
  destruct (IH s1 HInv1 Hnfb1 ltac:(congruence)) as (s & Hrun & ? & ? & Hm & HT).
  exists s. rewrite Hm, HT. done.
Qed.

(** With nothing allocated and no two free buddies, every level below the
    last is empty. *)
Lemma nothing_allocated_levels_empty self :
  Inv self → no_free_buddies self → allocated_blocks self = ∅ →
  ∀ l, (l < levels self - 1)%nat → free_blocks self !! l = Some ∅.
Proof.
  intros [Hm HL HT (Hlen & Hgeo & _)] Hnfb Hempty l.
  induction l as [l IH] using lt_wf_ind. intros Hl.
  destruct (lookup_lt_is_Some_2 (free_blocks self) l ltac:(lia)) as [X HX].
  rewrite HX. f_equal. apply leibniz_equiv, elem_of_equiv_empty. intros a Ha.
  assert (block_in (free_blocks self) (allocated_blocks self) (FreeBlock l a)) as Hblk
    by (simpl; eauto).
  destruct (geo_aligned _ _ _ _ Hgeo _ Hblk) as [q Hq].
  destruct (geo_inside _ _ _ _ Hgeo _ Hblk) as [Ha0 HaT].
  simpl in Hq, Ha0, HaT.
  pose proof (block_size_pos (min_size self) l Hm) as Hd.
  assert (∀ j, (l < j)%nat → (2 * block_size (min_size self) l | block_size (min_size self) j))
    as Hdiv2.
  { intros j Hj. rewrite <- block_size_S. apply block_size_divide. lia. }
  pose proof (Hnfb l X) as Hnfbl.
  remember (block_size (min_size self) l) as d eqn:Hdef.
  assert ((2 * d | total_size self)) as [w Hw].
  { rewrite HT. apply Hdiv2. lia. }
  (* the block of twice the size around [a], and the other half [b] of it *)
  assert (∃ c b, (2 * d | c) ∧ ((a = c ∧ b = c + d) ∨ (a = c + d ∧ b = c))) as
    (c & b & [v Hv] & Hab).
  { destruct (Z.even q) eqn:Heven.
    - apply Z.even_spec in Heven as [h ->]. exists a, (a + d). split; [exists h; lia|]. by left.
    - assert (Z.odd q = true) as Hodd by (by rewrite <- Z.negb_even, Heven).
      apply Z.odd_spec in Hodd as [h ->]. exists (a - d), (a - d).
      split; [exists h; lia|]. right. lia. }
  assert (0 ≤ c ∧ c + 2 * d ≤ total_size self) as [Hc0 HcT].
  { assert (- 1 < v) by (apply (Z.mul_lt_mono_pos_r (2 * d)); lia).
    assert (v < w) by (apply (Z.mul_lt_mono_pos_r (2 * d)); lia).
    assert ((v + 1) * (2 * d) ≤ w * (2 * d)) by (apply Z.mul_le_mono_nonneg_r; lia).
    assert (0 * (2 * d) ≤ v * (2 * d)) by (apply Z.mul_le_mono_nonneg_r; lia).
    lia. }
  destruct (geo_no_gap _ _ _ _ Hgeo b ltac:(lia)) as ([l' x|x sz] & Hin & Hcov).
  2:{ simpl in Hin. by rewrite Hempty, lookup_empty in Hin. }
  unfold covers in Hcov. simpl in Hcov.
  destruct (geo_aligned _ _ _ _ Hgeo _ Hin) as [u Hu]. simpl in Hu.
  destruct Hin as (X' & HX' & Hx).
  pose proof (lookup_lt_Some _ _ _ HX') as Hl'.
  destruct (Nat.lt_trichotomy l' l) as [Hlt|[->|Hgt]].
  - rewrite (IH l' Hlt ltac:(lia)) in HX'. apply (inj Some) in HX'. subst X'.
    by apply not_elem_of_empty in Hx.
  - assert (X' = X) as -> by congruence. rewrite <- Hdef in Hcov, Hu.
    assert (x = b) as ->.
    { destruct Hab as [[_ ->]|[_ ->]]; [|subst c].
      - assert (u = 2 * v + 1); [|subst; lia].
        assert (2 * v < u) by (apply (Z.mul_lt_mono_pos_r d); lia).
        assert (u < 2 * v + 2) by (apply (Z.mul_lt_mono_pos_r d); lia). lia.
      - assert (u = 2 * v); [|subst; lia].
        assert (2 * v - 1 < u) by (apply (Z.mul_lt_mono_pos_r d); lia).
        assert (u < 2 * v + 1) by (apply (Z.mul_lt_mono_pos_r d); lia). lia. }
    apply (Hnfbl c); [done|done|..]; [| |by exists v];
      destruct Hab as [[-> ->]|[-> ->]]; done.
  - destruct (Hdiv2 l' Hgt) as [z Hz].
    assert (FreeBlock l' x = FreeBlock l a) as Heq; [|injection Heq as -> _; lia].
    apply (geo_no_overlap _ _ _ _ Hgeo _ _ a); [simpl; eauto|done|..];
      unfold covers; simpl; rewrite <- ?Hdef; [|lia].
    assert (x ≤ c ∧ c + 2 * d ≤ x + block_size (min_size self) l'); [|lia].
    rewrite Hz in *. subst x c.
    assert (u * z < v + 1) by (apply (Z.mul_lt_mono_pos_r (2 * d)); lia).
    assert (v < u * z + z) by (apply (Z.mul_lt_mono_pos_r (2 * d)); lia).
    assert (u * z * (2 * d) ≤ v * (2 * d)) by (apply Z.mul_le_mono_nonneg_r; lia).
    assert ((v + 1) * (2 * d) ≤ (u * z + z) * (2 * d)) by (apply Z.mul_le_mono_nonneg_r; lia).
    lia.
Qed.

End complete_coalescing.


(** X12. With a minimum size that is a power of two, freeing everything
    gives back the fresh allocator: whenever a sequence of calls ends with
    an empty allocated map, the whole space is one free block again. *)
Theorem all_freed_is_fresh (t n : nat) (ops : list op) (s : BuddySystemAllocator) :
  run (fresh (2 ^ Z.of_nat t * 2 ^ Z.of_nat n) (2 ^ Z.of_nat t) n) ops = Ok s →
  allocated_blocks s = ∅ →
  s = fresh (2 ^ Z.of_nat t * 2 ^ Z.of_nat n) (2 ^ Z.of_nat t) n.
Proof.
  assert (0 < 2 ^ Z.of_nat t) as Hmin by (apply Z.pow_pos_nonneg; lia).
  set (min := 2 ^ Z.of_nat t) in *. set (total := min * 2 ^ Z.of_nat n).
  intros Hrun Hempty.
  destruct (run_no_free_buddies (fresh total min n) t ops) as (s1 & Hrun1 & HInv & Hnfb & Hm & HT);
    [by apply fresh_Inv|apply fresh_no_free_buddies|done|].
  rewrite Hrun in Hrun1. injection Hrun1 as <-. simpl in Hm, HT.
  pose proof (nothing_allocated_levels_empty s HInv Hnfb Hempty) as Hlow.
  destruct HInv as [Hm0 HL HTL (Hlen & Hgeo & _)].
  assert (levels s = S n) as HLn.
  { assert (total = block_size min n) as Hbs by (unfold total; by rewrite block_size_spec).
    rewrite HT, Hm, Hbs in HTL. apply block_size_inj in HTL; [lia|done]. }
  pose proof (block_size_pos (min_size s) n Hm0) as Hpos.
  assert (total_size s = block_size (min_size s) n) as HTn
    by (rewrite HTL, HLn; f_equal; lia).
  destruct (lookup_lt_is_Some_2 (free_blocks s) n ltac:(lia)) as [X HX].
  assert (X = {[ 0 ]}) as ->.
  { apply set_eq. intros x. rewrite elem_of_singleton. split.
    - intros Hx.
      destruct (geo_inside _ _ _ _ Hgeo (FreeBlock n x)) as [H0 H1]; [simpl; eauto|].
      simpl in H0, H1. lia.
    - intros ->.
      destruct (geo_no_gap _ _ _ _ Hgeo 0 ltac:(lia)) as ([l x|x sz] & Hin & Hcov).
      2:{ simpl in Hin. by rewrite Hempty, lookup_empty in Hin. }
      destruct (geo_inside _ _ _ _ Hgeo _ Hin) as [H0 _].
      unfold covers in Hcov. simpl in Hcov, H0. assert (x = 0) as -> by lia.
      destruct Hin as (X' & HX' & Hx).
      pose proof (lookup_lt_Some _ _ _ HX') as Hl.
      destruct (decide (l = n)) as [->|Hne]; [congruence|].
      rewrite Hlow in HX' by lia. apply (inj Some) in HX'. subst X'.
      by apply not_elem_of_empty in Hx. }
  assert (free_blocks s = replicate n ∅ ++ [ {[ 0 ]} ]) as Hfb.
  { apply list_eq. intros i.
    destruct (decide (i < n)%nat) as [Hi|Hi].
    - rewrite Hlow by lia. rewrite lookup_app_l by (by rewrite length_replicate).
      symmetry. by apply lookup_replicate.
    - rewrite lookup_app_r by (rewrite length_replicate; lia).
      rewrite length_replicate.
      destruct (decide (i = n)) as [->|Hne]; [by rewrite Nat.sub_diag|].
      rewrite lookup_ge_None_2 by lia.
      destruct (i - n)%nat as [|k] eqn:Hk; [lia|]. done. }
  destruct s as [T m L fb al]. simpl in *. unfold fresh. congruence.
Qed.

Lemma all_freed_is_fresh_witness :
  mkAllocator 1024 128 4 [ ∅; ∅; ∅; {[ 0 ]} ] ∅
  = fresh (2 ^ Z.of_nat 7 * 2 ^ Z.of_nat 3) (2 ^ Z.of_nat 7) 3.
Proof.
  apply (all_freed_is_fresh 7 3
           [Allocate smallest_first 128; Allocate smallest_first 300;
            Deallocate 0; Deallocate 512]).
  - vm_compute. reflexivity.
  - reflexivity.
Defined.

(** ** Requests the free space cannot serve *)

Section free_space.




End free_space.



(** ** The level of a request *)





(** ** A negative minimum size *)


